(** * Extraterm: the pty session manager of [src/main.ts] and the tip
      carousel of the tip viewer, as a shallow embedding.

    The main process keeps two module-level variables, [ptyCounter] and
    [ptyMap], and reacts to three kinds of events: IPC messages from a
    window ([handleAsyncIpc]), events of a spawned terminal (the ['data']
    and ['exit'] listeners installed by [createPty]) and the ['closed'] event
    of the window ([cleanUpPtyWindow]).  Handlers are modelled in a small
    state, exception and output monad; the output is the list of calls made
    on the outside world (console, IPC channel, terminals), in call order. *)

From Stdlib Require Import ZArith NArith Lia Sorted.
From Stdlib Require Ascii HexString.
From stdpp Require Import gmap strings list.

Local Open Scope Z_scope.

(** ** JavaScript [Map] with number keys

    A [Map] iterates in insertion order, [set] on a present key keeps the
    position of the key, [delete] removes the entry.  The entries are kept in
    an association list; [jsmap_wf] says a key occurs once, which is what
    every list built by [jsmap_set] and [jsmap_delete] from the empty map
    satisfies. *)

Module JsMap.
Section ops.
Context {V : Type}.

Fixpoint jsmap_get (k : Z) (m : list (Z * V)) : option V :=
  match m with
  | [] => None
  | (k', v) :: m' => if decide (k = k') then Some v else jsmap_get k m'
  end.

Fixpoint jsmap_set (k : Z) (v : V) (m : list (Z * V)) : list (Z * V) :=
  match m with
  | [] => [(k, v)]
  | (k', v') :: m' =>
      if decide (k = k') then (k, v) :: m' else (k', v') :: jsmap_set k v m'
  end.

Fixpoint jsmap_delete (k : Z) (m : list (Z * V)) : list (Z * V) :=
  match m with
  | [] => []
  | (k', v') :: m' =>
      if decide (k = k') then m' else (k', v') :: jsmap_delete k m'
  end.

Definition jsmap_keys (m : list (Z * V)) : list Z := m.*1.

Definition jsmap_wf (m : list (Z * V)) : Prop := NoDup (jsmap_keys m).
End ops.
End JsMap.
Import JsMap.

(** ** Host objects

    Electron's [BrowserWindow] and [WebContents] are seen through what
    [main.ts] reads of them: the [id] of a window and the window
    [BrowserWindow.fromWebContents] finds for a sender.  A terminal returned
    by [pty.spawn] is an object; its identity is the number of terminals
    spawned before it. *)

Record BrowserWindow := { win_id : Z }.

Record WebContents := { wc_id : Z; wc_window : BrowserWindow }.

Definition fromWebContents (sender : WebContents) : BrowserWindow :=
  wc_window sender.

Definition Terminal := nat.

#[global] Instance BrowserWindow_eq_dec : EqDecision BrowserWindow.
Proof. solve_decision. Defined.

#[global] Instance WebContents_eq_dec : EqDecision WebContents.
Proof. solve_decision. Defined.

(** ** Configuration and themes *)

Definition CONFIG_FILENAME : string := "config".
Definition THEME_CONFIG : string := "theme.json".
Definition THEMES_DIRECTORY : string := "themes".

(** The fields of [Config] that [main.ts] touches. *)
Record Config := {
  theme : string;
  blinkingCursor : bool;
  themePath : option string
}.

(** [path.join] on segments that need no normalisation. *)
Definition path_join (segments : list string) : string :=
  String.concat "/" segments.

(** A value produced by [JSON.parse].  A number keeps its literal; the
    members of an object are in source order. *)
#[warnings="-register-all"]
Inductive Json :=
| JNull
| JBool (b : bool)
| JNumber (literal : string)
| JString (s : string)
| JArray (items : list Json)
| JObject (members : list (string * Json)).

(** ** Messages of [windowmessages]

    [main.ts] names eleven message types.  [OTHER tag] is a type tag that is
    none of them. *)

Inductive MessageType :=
| CONFIG_REQUEST | CONFIG
| FRAME_DATA_REQUEST
| THEMES_REQUEST | THEMES
| PTY_CREATE | PTY_CREATED
| PTY_RESIZE | PTY_INPUT | PTY_OUTPUT | PTY_CLOSE
| OTHER (tag : Z).

Inductive Message :=
| ConfigRequestMessage
| ConfigMessage (config : Config)
| FrameDataRequestMessage
| ThemesRequestMessage
| ThemesMessage (themes : list Json)
| CreatePtyRequestMessage (command : string) (args : list string)
                          (columns rows : Z)
| CreatedPtyMessage (id : Z)
| PtyResize (id columns rows : Z)
| PtyInput (id : Z) (data : string)
| PtyOutput (id : Z) (data : string)
| PtyClose (id : Z)
| OtherMessage (tag : Z).

Definition msg_type (msg : Message) : MessageType :=
  match msg with
  | ConfigRequestMessage => CONFIG_REQUEST
  | ConfigMessage _ => CONFIG
  | FrameDataRequestMessage => FRAME_DATA_REQUEST
  | ThemesRequestMessage => THEMES_REQUEST
  | ThemesMessage _ => THEMES
  | CreatePtyRequestMessage _ _ _ _ => PTY_CREATE
  | CreatedPtyMessage _ => PTY_CREATED
  | PtyResize _ _ _ => PTY_RESIZE
  | PtyInput _ _ => PTY_INPUT
  | PtyOutput _ _ => PTY_OUTPUT
  | PtyClose _ => PTY_CLOSE
  | OtherMessage tag => OTHER tag
  end.

(** The [case] labels of the [switch] in [handleAsyncIpc]. *)
Definition recognized (t : MessageType) : bool :=
  match t with
  | CONFIG_REQUEST | FRAME_DATA_REQUEST | THEMES_REQUEST
  | PTY_CREATE | PTY_RESIZE | PTY_INPUT | PTY_CLOSE => true
  | _ => false
  end.

(** The session id a message carries, if it carries one. *)
Definition msg_id (msg : Message) : option Z :=
  match msg with
  | CreatedPtyMessage id | PtyResize id _ _ | PtyInput id _
  | PtyOutput id _ | PtyClose id => Some id
  | _ => None
  end.

(** ** Calls on the outside world *)

Inductive LogItem :=
| LText (s : string)
| LNumber (n : Z)
| LMessage (msg : Message)
| LConfig (c : Config)
| LEscaped (data : string).   (* [substituteBadChars(data)] *)

Definition WARNING_NO_TERMINAL : string :=
  "WARNING: Input arrived for a terminal which doesn't exist.".

Inductive Exn :=
| SpawnError      (* thrown by [pty.spawn] *)
| TypeError       (* property read on [undefined] or [null] *)
| FsError.        (* thrown by a call of [fs] *)

Inductive Effect :=
| ELog (items : list LogItem)                       (* console.log *)
| ESend (target : WebContents) (msg : Message)      (* sender.send(CHANNEL_NAME, msg) *)
| ESpawn (file : string) (args : list string) (cols rows : Z)
         (term : option Terminal)                   (* pty.spawn; None: it threw *)
| EWrite (term : Terminal) (data : string)          (* term.write *)
| EResize (term : Terminal) (cols rows : Z)         (* term.resize *)
| EDestroy (term : Terminal)                        (* term.destroy *)
| EUncaught (e : Exn).                              (* exception out of a handler *)

#[global] Instance Effect_inhabited : Inhabited Effect := populate (ELog []).

(** ** Module state *)

Record PtyTuple := { windowId : Z; ptyTerm : Terminal }.

(** The variables captured by the two listeners [createPty] installs on a
    terminal. *)
Record Listener := {
  l_term : Terminal;
  l_sender : WebContents;
  l_ptyId : Z
}.

(** [ptyCounter] counts the sessions created.  A JavaScript number is exact
    on integers up to 2^53, more than a run can spawn processes, so the
    counter and the ids are integers here. *)
Record State := {
  dirname : string;                  (* __dirname *)
  config : Config;
  themes : gmap string Json;
  ptyCounter : Z;
  ptyMap : list (Z * PtyTuple);
  listeners : list Listener;         (* in the order of [term.on] *)
  spawned : nat                      (* terminals spawned so far *)
}.

Definition with_ptyCounter (c : Z) (st : State) : State :=
  {| dirname := dirname st; config := config st; themes := themes st;
     ptyCounter := c; ptyMap := ptyMap st;
     listeners := listeners st; spawned := spawned st |}.

Definition with_ptyMap (m : list (Z * PtyTuple)) (st : State) : State :=
  {| dirname := dirname st; config := config st; themes := themes st;
     ptyCounter := ptyCounter st; ptyMap := m;
     listeners := listeners st; spawned := spawned st |}.

Definition with_listeners (ls : list Listener) (st : State) : State :=
  {| dirname := dirname st; config := config st; themes := themes st;
     ptyCounter := ptyCounter st; ptyMap := ptyMap st;
     listeners := ls; spawned := spawned st |}.

Definition with_spawned (n : nat) (st : State) : State :=
  {| dirname := dirname st; config := config st; themes := themes st;
     ptyCounter := ptyCounter st; ptyMap := ptyMap st;
     listeners := listeners st; spawned := n |}.

(** The state when [main()] has run: no session yet ([ptyCounter = 0], an
    empty [ptyMap]). *)
Definition initial (dir : string) (cfg : Config) (ths : gmap string Json)
  : State :=
  {| dirname := dir; config := cfg; themes := ths;
     ptyCounter := 0; ptyMap := [];
     listeners := []; spawned := 0%nat |}.

(** ** The handler monad: state, exceptions, calls made *)

Inductive Result (A : Type) :=
| Ok (a : A)
| Throw (e : Exn).
Arguments Ok {A} a.
Arguments Throw {A} e.

Record Run (A : Type) := mkRun {
  result : Result A;
  final : State;
  effects : list Effect
}.
Arguments mkRun {A}.
Arguments result {A}.
Arguments final {A}.
Arguments effects {A}.

Definition M (A : Type) : Type := State → Run A.

Definition ret {A} (a : A) : M A := λ st, mkRun (Ok a) st [].

Definition bind {A B} (m : M A) (f : A → M B) : M B := λ st,
  let r := m st in
  match result r with
  | Ok a =>
      let r' := f a (final r) in
      mkRun (result r') (final r') (effects r ++ effects r')
  | Throw e => mkRun (Throw e) (final r) (effects r)
  end.

Definition throw {A} (e : Exn) : M A := λ st, mkRun (Throw e) st [].
Definition get_state : M State := λ st, mkRun (Ok st) st [].
Definition modify (f : State → State) : M unit := λ st, mkRun (Ok tt) (f st) [].
Definition emit (e : Effect) : M unit := λ st, mkRun (Ok tt) st [e].

Declare Scope js_scope.
Delimit Scope js_scope with js.
Notation "'let!' x := c1 'in' c2" := (bind c1 (λ x, c2))
  (at level 10, x name, c1 at level 100, c2 at level 200) : js_scope.
Notation "c1 ;;; c2" := (bind c1 (λ _, c2))
  (at level 100, c2 at level 200, right associativity) : js_scope.
Local Open Scope js_scope.

(** [array.forEach(f)]: an exception out of [f] ends the loop. *)
Fixpoint forEach {A} (xs : list A) (f : A → M unit) : M unit :=
  match xs with
  | [] => ret tt
  | x :: xs' => f x ;;; forEach xs' f
  end.

(** ** [main.ts]: logging, configuration, themes *)

Definition log (items : list LogItem) : M unit := emit (ELog items).

Definition logData (data : string) : M unit := log [LEscaped data].

(** The outcome of [fs.readFileSync(infopath)] followed by [JSON.parse] for
    one entry of the themes directory. *)
Inductive ThemeFile :=
| Unreadable                 (* [readFileSync] throws *)
| Malformed (text : string)  (* [JSON.parse] throws *)
| Parsed (themeinfo : Json).

(** What [fs] answers for the themes directory [themesdir]. *)
Inductive ThemesDir :=
| DirMissing                                 (* [existsSync] is false *)
| DirUnlistable                              (* [readdirSync] throws *)
| DirContents (contents : list (string * ThemeFile)).

(** [JSON.parse] keeps the last member of a repeated key. *)
Fixpoint own_property (p : string) (members : list (string * Json))
  : option Json :=
  match members with
  | [] => None
  | (k, v) :: rest =>
      match own_property p rest with
      | Some v' => Some v'
      | None => if decide (k = p) then Some v else None
      end
  end.

(** [themeinfo.name]: a [TypeError] on [null], the member of an object,
    [undefined] ([None]) on anything else [JSON.parse] returns. *)
Definition get_name (themeinfo : Json) : Result (option Json) :=
  match themeinfo with
  | JNull => Throw TypeError
  | JObject members => Ok (own_property "name" members)
  | _ => Ok None
  end.

Definition isString (v : option Json) : bool :=
  match v with
  | Some (JString _) => true
  | _ => false
  end.

(** Strict inequality with the empty string. *)
Definition strict_ne_empty (v : option Json) : bool :=
  match v with
  | Some (JString s) => bool_decide (s ≠ EmptyString)
  | _ => true
  end.

Definition validateThemeInfo (themeinfo : Json) : Result bool :=
  match get_name themeinfo with
  | Throw e => Throw e
  | Ok name => Ok (isString name && strict_ne_empty name)
  end.

(** The body of the [forEach] callback of [scanThemes] for one [item]; the
    [try] turns every exception into a warning. *)
Definition scanThemes_item (themesdir : string) (thememap : gmap string Json)
    (item : string) (file : ThemeFile) : gmap string Json * list Effect :=
  let infopath := path_join [themesdir; item; THEME_CONFIG] in
  let warning := [ELog [LText "Warning: Unable to read file "; LText infopath]] in
  match file with
  | Unreadable => (thememap, warning)
  | Malformed _ => (thememap, warning)
  | Parsed themeinfo =>
      match validateThemeInfo themeinfo with
      | Throw _ => (thememap, warning)
      | Ok true => (<[item := themeinfo]> thememap, [])
      | Ok false => (thememap, [])
      end
  end.

Fixpoint scanThemes_loop (themesdir : string) (thememap : gmap string Json)
    (contents : list (string * ThemeFile)) : gmap string Json * list Effect :=
  match contents with
  | [] => (thememap, [])
  | (item, file) :: rest =>
      let '(thememap', out) := scanThemes_item themesdir thememap item file in
      let '(thememap'', out') := scanThemes_loop themesdir thememap' rest in
      (thememap'', out ++ out')
  end.

(** [scanThemes]: the result is [None] where the function ends without a
    [return], that is, returns [undefined]. *)
Definition scanThemes (themesdir : string) (fs : ThemesDir)
  : Result (option (gmap string Json)) * list Effect :=
  match fs with
  | DirMissing => (Ok None, [])
  | DirUnlistable => (Throw FsError, [])
  | DirContents contents =>
      let '(thememap, out) := scanThemes_loop themesdir ∅ contents in
      (Ok (Some thememap), out)
  end.

Definition getConfig : M Config :=
  let! st := get_state in ret (config st).

Definition getFullConfig : M Config :=
  let! st := get_state in
  let themesDir := path_join [dirname st; THEMES_DIRECTORY] in
  let fullConfig :=
    {| theme := theme (config st);
       blinkingCursor := blinkingCursor (config st);
       themePath := Some (path_join [themesDir; theme (config st)]) |} in
  log [LText "Full config: "; LConfig fullConfig] ;;;
  ret fullConfig.

(** [themes.toArray()]: the values of the map. *)
Definition getThemes : M (list Json) :=
  let! st := get_state in ret ((map_to_list (themes st)).*2).

(** ** [main.ts]: IPC and pty sessions *)

Definition send (sender : WebContents) (msg : Message) : M unit :=
  emit (ESend sender msg).

Definition handleConfigRequest : M Message :=
  let! cfg := getFullConfig in ret (ConfigMessage cfg).

Definition handleThemesRequest : M Message :=
  let! ths := getThemes in ret (ThemesMessage ths).

(** Whether the operating system lets [pty.spawn] create the process. *)
Inductive SpawnOutcome := SpawnOk | SpawnFails.

Definition pty_spawn (os : SpawnOutcome) (file : string) (args : list string)
    (cols rows : Z) : M Terminal :=
  match os with
  | SpawnFails => emit (ESpawn file args cols rows None) ;;; throw SpawnError
  | SpawnOk =>
      let! st := get_state in
      let term := spawned st in
      modify (with_spawned (S term)) ;;;
      emit (ESpawn file args cols rows (Some term)) ;;;
      ret term
  end.

(** The ['data'] listener of [createPty], with its captured variables. *)
Definition on_data (l : Listener) (data : string) : M unit :=
  log [LText "pty process got data for ptyID="; LNumber (l_ptyId l)] ;;;
  logData data ;;;
  send (l_sender l) (PtyOutput (l_ptyId l) data).

(** The ['exit'] listener of [createPty], with its captured variables. *)
Definition on_exit (l : Listener) : M unit :=
  log [LText "pty process exited."] ;;;
  send (l_sender l) (PtyClose (l_ptyId l)) ;;;
  emit (EDestroy (l_term l)) ;;;
  modify (λ st, with_ptyMap (jsmap_delete (l_ptyId l) (ptyMap st)) st).

(** [term.on('data', ...)] and [term.on('exit', ...)]. *)
Definition term_on (l : Listener) : M unit :=
  modify (λ st, with_listeners (listeners st ++ [l]) st).

Definition createPty (os : SpawnOutcome) (sender : WebContents)
    (file : string) (args : list string) (cols rows : Z) : M Z :=
  let! term := pty_spawn os file args cols rows in
  modify (λ st, with_ptyCounter (ptyCounter st + 1) st) ;;;
  let! st := get_state in
  let ptyId := ptyCounter st in
  modify (λ st, with_ptyMap
    (jsmap_set ptyId
       {| windowId := win_id (fromWebContents sender); ptyTerm := term |}
       (ptyMap st)) st) ;;;
  term_on {| l_term := term; l_sender := sender; l_ptyId := ptyId |} ;;;
  ret ptyId.

Definition handlePtyCreate (os : SpawnOutcome) (sender : WebContents)
    (command : string) (args : list string) (columns rows : Z) : M Message :=
  let! id := createPty os sender command args columns rows in
  ret (CreatedPtyMessage id).

Definition handlePtyInput (id : Z) (data : string) : M unit :=
  let! st := get_state in
  match jsmap_get id (ptyMap st) with
  | None => log [LText WARNING_NO_TERMINAL]
  | Some ptyTerminalTuple => emit (EWrite (ptyTerm ptyTerminalTuple) data)
  end.

Definition handlePtyResize (id columns rows : Z) : M unit :=
  let! st := get_state in
  match jsmap_get id (ptyMap st) with
  | None => log [LText WARNING_NO_TERMINAL]
  | Some ptyTerminalTuple =>
      emit (EResize (ptyTerm ptyTerminalTuple) columns rows)
  end.

Definition handlePtyClose (id : Z) : M unit :=
  let! st := get_state in
  match jsmap_get id (ptyMap st) with
  | None => log [LText WARNING_NO_TERMINAL]
  | Some ptyTerminalTuple =>
      emit (EDestroy (ptyTerm ptyTerminalTuple)) ;;;
      modify (λ st, with_ptyMap (jsmap_delete id (ptyMap st)) st)
  end.

Record IpcEvent := { sender : WebContents }.

(** [handleAsyncIpc]: [reply] is [None] for [null]. *)
Definition handleAsyncIpc (os : SpawnOutcome) (event : IpcEvent)
    (msg : Message) : M unit :=
  log [LText "Main IPC incoming: "; LMessage msg] ;;;
  let! reply :=
    match msg with
    | ConfigRequestMessage =>
        let! r := handleConfigRequest in ret (Some r)
    | FrameDataRequestMessage =>
        log [LText "Messages.MessageType.FRAME_DATA_REQUEST is not implemented."] ;;;
        ret None
    | ThemesRequestMessage =>
        let! r := handleThemesRequest in ret (Some r)
    | CreatePtyRequestMessage command args columns rows =>
        let! r := handlePtyCreate os (sender event) command args columns rows in
        ret (Some r)
    | PtyResize id columns rows => handlePtyResize id columns rows ;;; ret None
    | PtyInput id data => handlePtyInput id data ;;; ret None
    | PtyClose id => handlePtyClose id ;;; ret None
    | _ => ret None
    end in
  match reply with
  | Some r => send (sender event) r
  | None => ret tt
  end.

(** The callback of [keys.forEach] in [cleanUpPtyWindow]. *)
Definition cleanUpPtyWindow_visit (window : BrowserWindow) (k : Z) : M unit :=
  let! st := get_state in
  match jsmap_get k (ptyMap st) with
  | None => throw TypeError          (* [tup.windowId] on [undefined] *)
  | Some tup =>
      if decide (windowId tup = win_id window) then
        emit (EDestroy (ptyTerm tup)) ;;;
        modify (λ st, with_ptyMap (jsmap_delete k (ptyMap st)) st)
      else ret tt
  end.

(** [cleanUpPtyWindow]: the keys are copied first, then visited. *)
Definition cleanUpPtyWindow (window : BrowserWindow) : M unit :=
  let! st := get_state in
  let keys := jsmap_keys (ptyMap st) in
  forEach keys (cleanUpPtyWindow_visit window).

(** ** The event loop

    One event is handled to completion before the next.  A terminal event
    calls the listeners registered on that terminal; an exception that leaves
    a handler is reported and the loop goes on. *)

Inductive Event :=
| IpcMessage (os : SpawnOutcome) (event : IpcEvent) (msg : Message)
| TermData (term : Terminal) (data : string)
| TermExit (term : Terminal)
| WindowClosed (window : BrowserWindow).

Definition listeners_of (term : Terminal) (st : State) : list Listener :=
  filter (λ l, l_term l = term) (listeners st).

Definition handle (ev : Event) : M unit :=
  match ev with
  | IpcMessage os event msg => handleAsyncIpc os event msg
  | TermData term data =>
      let! st := get_state in
      forEach (listeners_of term st) (λ l, on_data l data)
  | TermExit term =>
      let! st := get_state in
      forEach (listeners_of term st) on_exit
  | WindowClosed window => cleanUpPtyWindow window
  end.

Definition dispatch (ev : Event) (st : State) : State * list Effect :=
  let r := handle ev st in
  match result r with
  | Ok _ => (final r, effects r)
  | Throw e => (final r, effects r ++ [EUncaught e])
  end.

Fixpoint run (evs : list Event) (st : State) : State * list Effect :=
  match evs with
  | [] => (st, [])
  | ev :: evs' =>
      let '(st', out) := dispatch ev st in
      let '(st'', out') := run evs' st' in
      (st'', out ++ out')
  end.

(** The ids handed out by [createPty], as seen in the replies of
    [handlePtyCreate]. *)
Definition created_ids (out : list Effect) : list Z :=
  omap (λ e, match e with
             | ESend _ (CreatedPtyMessage id) => Some id
             | _ => None
             end) out.

(** The messages sent on the channel. *)
Definition sent (out : list Effect) : list (WebContents * Message) :=
  omap (λ e, match e with ESend to msg => Some (to, msg) | _ => None end) out.

Definition destroyed (out : list Effect) : list Terminal :=
  omap (λ e, match e with EDestroy t => Some t | _ => None end) out.

Definition registered (id : Z) (st : State) : Prop :=
  is_Some (jsmap_get id (ptyMap st)).

Definition reachable (st : State) : Prop :=
  ∃ dir cfg ths evs, st = (run evs (initial dir cfg ths)).1.

(** A session that was created and is no longer in the registry: its
    listener exists, its id is not registered. *)
Definition removed (l : Listener) (st : State) : Prop :=
  l ∈ listeners st ∧ ¬ registered (l_ptyId l) st.

(** "Once a session is removed, an event of its terminal sends no message
    that carries its id." *)
Definition late_events_dropped : Prop :=
  ∀ st l ev, reachable st → removed l st →
    (ev = TermExit (l_term l) ∨ ∃ data, ev = TermData (l_term l) data) →
    ∀ target msg, (target, msg) ∈ sent (dispatch ev st).2 →
                  msg_id msg ≠ Some (l_ptyId l).

(** A handler that leaves [ptyCounter] alone and announces no new id. *)
Definition quiet (st st' : State) (out : list Effect) : Prop :=
  ptyCounter st' = ptyCounter st ∧ created_ids out = [].

(** What holds of every state the event loop reaches: keys and listener ids
    are at most [ptyCounter], terminals are spawned ones, a terminal and an id
    have one listener each, and the entry of a session agrees with the
    listener created with it. *)
Record Inv (st : State) : Prop := {
  inv_wf : jsmap_wf (ptyMap st);
  inv_keys : ∀ k, k ∈ jsmap_keys (ptyMap st) → k ≤ ptyCounter st;
  inv_listeners : ∀ l, l ∈ listeners st →
    l_ptyId l ≤ ptyCounter st ∧ (l_term l < spawned st)%nat;
  inv_ids : NoDup (l_ptyId <$> listeners st);
  inv_terms : NoDup (l_term <$> listeners st);
  inv_owner : ∀ k tup, jsmap_get k (ptyMap st) = Some tup →
    ∃ l, l ∈ listeners st ∧ l_ptyId l = k ∧ l_term l = ptyTerm tup ∧
         win_id (fromWebContents (l_sender l)) = windowId tup
}.

(** ** Tip viewer: the index of the shown tip *)

Module TipViewer.

(** [%] of JavaScript on integers: the sign of the dividend. *)
Definition js_mod (a b : Z) : Z := Z.rem a b.

Record TipViewer := { _tipIndex : Z }.

Section tips.
Variable tipData : list string.

Definition _getTipCount : Z := Z.of_nat (length tipData).

(** The [click] listener of the next button; it then shows the tip at the
    new index. *)
Definition next_click (this : TipViewer) : TipViewer :=
  {| _tipIndex := js_mod (_tipIndex this + 1) _getTipCount |}.

(** The [click] listener of the previous button; it then shows the tip at
    the new index. *)
Definition previous_click (this : TipViewer) : TipViewer :=
  {| _tipIndex := js_mod (_tipIndex this + _getTipCount - 1) _getTipCount |}.

(** [tipData[tipNumber]]; [None] is [undefined]. *)
Definition _getTipHTML (tipNumber : Z) : option string :=
  if decide (0 ≤ tipNumber) then tipData !! Z.to_nat tipNumber else None.

(** The first statement of [connectedCallback], with the [tipCounter] of
    the configuration. *)
Definition connectedCallback (tipCounter : Z) (this : TipViewer) : TipViewer :=
  {| _tipIndex := js_mod tipCounter _getTipCount |}.

Inductive Click := NextButton | PreviousButton.

Definition click (b : Click) (this : TipViewer) : TipViewer :=
  match b with
  | NextButton => next_click this
  | PreviousButton => previous_click this
  end.

Definition clicks (bs : list Click) (this : TipViewer) : TipViewer :=
  foldl (λ t b, click b t) this bs.

(** Next buttons minus previous buttons among [bs]. *)
Definition net_clicks (bs : list Click) : Z :=
  foldr (λ b acc, match b with NextButton => 1 | PreviousButton => -1 end + acc)
        0 bs.

End tips.
End TipViewer.

(** ** [main.ts]: escaping of logged data

    A JavaScript string is the list of its UTF-16 code units; the regular
    expression of [substituteBadChars] has no [u] flag and so works unit by
    unit. *)

Module BadChars.
Local Open Scope N_scope.

Definition units (s : string) : list N :=
  Ascii.N_of_ascii <$> String.list_ascii_of_string s.

Definition in_range (lo hi c : N) : bool := (lo <=? c) && (c <=? hi).

(** The characters listed in the class of the regular expression; the class
    is negated, so these are the ones left alone.  34 is the double quote. *)
Definition listed (c : N) : bool :=
  bool_decide (c ∈ units " /{},.:;<>!@#$%^&*()+=_'" ++ [34])
  || in_range 97 122 c || in_range 65 90 c || in_range 48 57 c
  || (c =? 45).

(** [c.toString(16)] *)
Definition toString16 (c : N) : list N :=
  units match c with
        | N0 => "0"
        | Npos p => HexString.Raw.of_pos p EmptyString
        end.

(** [mapBadChar(m)]; [m.charCodeAt(0)] of the empty string is [NaN]. *)
Definition mapBadChar (m : list N) : list N :=
  match head m with
  | None => units "\xNaN"
  | Some c =>
      if c =? 8 then units "\b"
      else if c =? 12 then units "\f"
      else if c =? 13 then units "\r"
      else if c =? 11 then units "\v"
      else units "\x" ++ (if c <? 16 then units "0" else []) ++ toString16 c
  end.

(** [data.replace(/[^...]/g, mapBadChar)] *)
Definition substituteBadChars (data : list N) : list N :=
  concat ((λ c, if listed c then [c] else mapBadChar [c]) <$> data).

Definition backslash : N := 92.

End BadChars.

(** ** [main.ts]: start-up

    [main] reads the configuration, scans the themes and falls back to the
    theme [default]; the handlers it then registers are the event loop above.
    The configuration file, when it parses, is taken to hold an object, as its
    type [Config] says. *)

Inductive ConfigFile :=
| ConfigMissing                                    (* [existsSync] is false *)
| ConfigUnreadable                                 (* [readFileSync] throws *)
| ConfigMalformed                                  (* [JSON.parse] throws *)
| ConfigObject (members : list (string * Json)).

Inductive StartExn :=
| JsonSyntaxError
| Uncaught (e : Exn).

Inductive Startup :=
| Started (st : State)
| Aborted (e : StartExn).

(** [readConfigurationFile]: the members of the configuration object. *)
Definition readConfigurationFile (file : ConfigFile)
  : StartExn + list (string * Json) :=
  match file with
  | ConfigMissing => inr []
  | ConfigUnreadable => inl (Uncaught FsError)
  | ConfigMalformed => inl JsonSyntaxError
  | ConfigObject members => inr members
  end.

(** [_.isBoolean(v) ? v : false] *)
Definition boolean_or_false (v : option Json) : bool :=
  match v with
  | Some (JBool b) => b
  | _ => false
  end.

(** [themes.get(config.theme) === undefined ? "default" : config.theme]; the
    keys of [themes] are strings. *)
Definition theme_or_default (ths : gmap string Json) (v : option Json)
  : string :=
  match v with
  | Some (JString s) => if ths !! s is Some _ then s else "default"
  | _ => "default"
  end.

Definition main (dir : string) (file : ConfigFile) (fs : ThemesDir)
  : Startup * list Effect :=
  match readConfigurationFile file with
  | inl e => (Aborted e, [])
  | inr members =>
      let blinking := boolean_or_false (own_property "blinkingCursor" members) in
      let themesdir := path_join [dir; THEMES_DIRECTORY] in
      match scanThemes themesdir fs with
      | (Throw e, out) => (Aborted (Uncaught e), out)
      | (Ok None, out) => (Aborted (Uncaught TypeError), out)
      | (Ok (Some ths), out) =>
          let cfg := {| theme := theme_or_default ths (own_property "theme" members);
                        blinkingCursor := blinking;
                        themePath := None |} in
          (Started (initial dir cfg ths), out)
      end
  end.

(** The entries of the themes directory for which the [try] of [scanThemes]
    catches an exception. *)
Definition entry_throws (file : ThemeFile) : bool :=
  match file with
  | Unreadable | Malformed _ | Parsed JNull => true
  | Parsed _ => false
  end.

Definition scan_warning (themesdir item : string) : Effect :=
  ELog [LText "Warning: Unable to read file ";
        LText (path_join [themesdir; item; THEME_CONFIG])].

(** The type of the reply [handleAsyncIpc] builds for a request, if any. *)
Definition reply_type (request : MessageType) : option MessageType :=
  match request with
  | CONFIG_REQUEST => Some CONFIG
  | THEMES_REQUEST => Some THEMES
  | PTY_CREATE => Some PTY_CREATED
  | _ => None
  end.

(** What one event may do to the entry of an id that has been handed out:
    leave it or remove it. *)
Definition entry_kept_or_removed (st st' : State) : Prop :=
  ∀ k, k ≤ ptyCounter st →
    jsmap_get k (ptyMap st') = jsmap_get k (ptyMap st) ∨
    jsmap_get k (ptyMap st') = None.

(** A handler step that keeps the invariant and the counter and creates no
    entry. *)
Definition calm (st st' : State) : Prop :=
  Inv st' ∧ ptyCounter st' = ptyCounter st ∧ entry_kept_or_removed st st'.

(** The integers from [lo + 1] to [lo + n]. *)
Definition ids_after (lo : Z) (n : nat) : list Z :=
  (λ i, lo + Z.of_nat i) <$> seq 1 n.

(** ** Tip viewer: subscriptions to the two managers

    The viewer keeps the [Disposable] that [onChange] of a manager returns
    and disposes it when the manager is replaced.  A manager and a disposable
    are objects, known by a number; [onChange] returns a new disposable at
    every call, numbered by how many were returned before. *)

Module TipSubscriptions.

Definition Manager := nat.
Definition Disposable := nat.

(** Calls the viewer makes on its collaborators. *)
Inductive Call :=
| OnChange (manager : Manager) (d : Disposable)  (* [manager.onChange(...)] returned [d] *)
| Dispose (d : Disposable).                      (* [d.dispose()] *)

Record Viewer := {
  _configManager : option Manager;
  _keybindingsManager : option Manager;
  _configManagerDisposable : option Disposable;
  _keybindingsManagerDisposable : option Disposable;
  issued : nat
}.

(** The fields as the class initialises them. *)
Definition new_viewer : Viewer :=
  {| _configManager := None; _keybindingsManager := None;
     _configManagerDisposable := None; _keybindingsManagerDisposable := None;
     issued := 0 |}.

(** [if (this._configManagerDisposable !== null) { ...dispose(); ... = null; }] *)
Definition release_config (this : Viewer) : Viewer * list Call :=
  match _configManagerDisposable this with
  | Some d =>
      ({| _configManager := _configManager this;
          _keybindingsManager := _keybindingsManager this;
          _configManagerDisposable := None;
          _keybindingsManagerDisposable := _keybindingsManagerDisposable this;
          issued := issued this |}, [Dispose d])
  | None => (this, [])
  end.

(** [if (this._keybindingsManagerDisposable !== null) { ...dispose(); ... = null; }] *)
Definition release_keybindings (this : Viewer) : Viewer * list Call :=
  match _keybindingsManagerDisposable this with
  | Some d =>
      ({| _configManager := _configManager this;
          _keybindingsManager := _keybindingsManager this;
          _configManagerDisposable := _configManagerDisposable this;
          _keybindingsManagerDisposable := None;
          issued := issued this |}, [Dispose d])
  | None => (this, [])
  end.

Definition setConfigDatabase (newConfigManager : option Manager)
    (this : Viewer) : Viewer * list Call :=
  let '(this1, out) := release_config this in
  match newConfigManager with
  | Some manager =>
      let d := issued this1 in
      ({| _configManager := Some manager;
          _keybindingsManager := _keybindingsManager this1;
          _configManagerDisposable := Some d;
          _keybindingsManagerDisposable := _keybindingsManagerDisposable this1;
          issued := S d |}, out ++ [OnChange manager d])
  | None =>
      ({| _configManager := None;
          _keybindingsManager := _keybindingsManager this1;
          _configManagerDisposable := _configManagerDisposable this1;
          _keybindingsManagerDisposable := _keybindingsManagerDisposable this1;
          issued := issued this1 |}, out)
  end.

Definition setKeybindingsManager (newKeybindingsManager : option Manager)
    (this : Viewer) : Viewer * list Call :=
  let '(this1, out) := release_keybindings this in
  match newKeybindingsManager with
  | Some manager =>
      let d := issued this1 in
      ({| _configManager := _configManager this1;
          _keybindingsManager := Some manager;
          _configManagerDisposable := _configManagerDisposable this1;
          _keybindingsManagerDisposable := Some d;
          issued := S d |}, out ++ [OnChange manager d])
  | None =>
      ({| _configManager := _configManager this1;
          _keybindingsManager := None;
          _configManagerDisposable := _configManagerDisposable this1;
          _keybindingsManagerDisposable := _keybindingsManagerDisposable this1;
          issued := issued this1 |}, out)
  end.

(** [dispose()] releases the keybindings subscription. *)
Definition dispose (this : Viewer) : Viewer * list Call :=
  release_keybindings this.

(** [disconnectedCallback()] releases the configuration subscription. *)
Definition disconnectedCallback (this : Viewer) : Viewer * list Call :=
  release_config this.

Inductive Method :=
| SetConfigDatabase (newConfigManager : option Manager)
| SetKeybindingsManager (newKeybindingsManager : option Manager)
| DisposeViewer
| DisconnectedCallback.

Definition invoke (m : Method) (this : Viewer) : Viewer * list Call :=
  match m with
  | SetConfigDatabase new => setConfigDatabase new this
  | SetKeybindingsManager new => setKeybindingsManager new this
  | DisposeViewer => dispose this
  | DisconnectedCallback => disconnectedCallback this
  end.

Fixpoint invoke_all (ms : list Method) (this : Viewer) : Viewer * list Call :=
  match ms with
  | [] => (this, [])
  | m :: ms' =>
      let '(this1, out) := invoke m this in
      let '(this2, out') := invoke_all ms' this1 in
      (this2, out ++ out')
  end.

Definition subscribed (out : list Call) : list Disposable :=
  omap (λ c, match c with OnChange _ d => Some d | _ => None end) out.

Definition disposed (out : list Call) : list Disposable :=
  omap (λ c, match c with Dispose d => Some d | _ => None end) out.

(** The disposables the viewer holds. *)
Definition held (this : Viewer) : list Disposable :=
  option_list (_configManagerDisposable this) ++
  option_list (_keybindingsManagerDisposable this).

(** What holds between a viewer and the calls it has made so far. *)
Definition accounted (this : Viewer) (out : list Call) : Prop :=
  subscribed out = seq 0 (issued this) ∧
  NoDup (disposed out ++ held this) ∧
  ∀ d, (d < issued this)%nat ↔ d ∈ disposed out ++ held this.

End TipSubscriptions.

(** ** Sample states *)

Module Sample.

Definition win1 : BrowserWindow := {| win_id := 1 |}.
Definition win2 : BrowserWindow := {| win_id := 2 |}.
Definition wc1 : WebContents := {| wc_id := 11; wc_window := win1 |}.
Definition wc2 : WebContents := {| wc_id := 12; wc_window := win2 |}.

Definition cfg : Config :=
  {| theme := "default"; blinkingCursor := false; themePath := None |}.

Definition st0 : State := initial "/app" cfg ∅.

Definition create (wc : WebContents) : Event :=
  IpcMessage SpawnOk {| sender := wc |}
             (CreatePtyRequestMessage "bash" [] 80 24).

Definition close (wc : WebContents) (id : Z) : Event :=
  IpcMessage SpawnOk {| sender := wc |} (PtyClose id).

(** Two sessions of window 1, then one of window 2. *)
Definition three_sessions : State :=
  (run [create wc1; create wc1; create wc2] st0).1.

(** One session, closed by its window. *)
Definition closed_session : State := (run [create wc1; close wc1 1] st0).1.

End Sample.

(** * Properties *)

(** ** Facts about [JsMap] *)

Section jsmap_facts.
Context {V : Type}.
Implicit Types (m : list (Z * V)) (k : Z) (v : V).

Lemma get_None m k : jsmap_get k m = None ↔ k ∉ jsmap_keys m.
Proof.
  induction m as [|[k' v] m IH]; simpl.
  - split; [intros _; apply not_elem_of_nil | done].
  - rewrite not_elem_of_cons. case_decide; [|tauto].
    split; [done | intros [? _]; done].
Qed.

Lemma get_Some_elem m k v : jsmap_get k m = Some v → (k, v) ∈ m.
Proof.
  induction m as [|[k' v'] m IH]; simpl; [done|].
  case_decide as E.
  - intros [= ->]. subst. apply elem_of_cons. by left.
  - intros H. apply elem_of_cons. right. auto.
Qed.

Lemma elem_get_Some m k v : jsmap_wf m → (k, v) ∈ m → jsmap_get k m = Some v.
Proof.
  unfold jsmap_wf, jsmap_keys.
  induction m as [|[k' v'] m IH]; simpl.
  - intros _ H. by apply elem_of_nil in H.
  - rewrite NoDup_cons. intros [Hk Hm] [E|E]%elem_of_cons.
    + injection E as -> ->. by rewrite decide_True.
    + rewrite decide_False; [auto|]. intros ->. apply Hk.
      apply list_elem_of_fmap. by exists (k', v).
Qed.

Lemma get_app m1 m2 k :
  jsmap_get k (m1 ++ m2) =
  match jsmap_get k m1 with Some v => Some v | None => jsmap_get k m2 end.
Proof.
  induction m1 as [|[k' v'] m1 IH]; simpl; [done|]. by case_decide.
Qed.

Lemma get_set_eq m k v : jsmap_get k (jsmap_set k v m) = Some v.
Proof.
  induction m as [|[k' v'] m IH]; simpl.
  - by rewrite decide_True.
  - case_decide as E; simpl; [by rewrite decide_True|by rewrite decide_False].
Qed.

Lemma get_set_ne m k k' v :
  k ≠ k' → jsmap_get k' (jsmap_set k v m) = jsmap_get k' m.
Proof.
  intros Hne. induction m as [|[k0 v0] m IH]; simpl.
  - by rewrite decide_False.
  - case_decide as E; simpl.
    + subst k0. by rewrite !decide_False.
    + by rewrite IH.
Qed.

Lemma delete_absent m k : k ∉ jsmap_keys m → jsmap_delete k m = m.
Proof.
  unfold jsmap_keys. induction m as [|[k' v'] m IH]; simpl; [done|].
  rewrite not_elem_of_cons. intros [Hne Hm].
  rewrite decide_False by done. by rewrite IH.
Qed.

Lemma delete_app_r m1 m2 k :
  k ∉ jsmap_keys m1 → jsmap_delete k (m1 ++ m2) = m1 ++ jsmap_delete k m2.
Proof.
  unfold jsmap_keys. induction m1 as [|[k' v'] m1 IH]; simpl; [done|].
  rewrite not_elem_of_cons. intros [Hne Hm].
  rewrite decide_False by done. by rewrite IH.
Qed.

Lemma keys_delete_subseteq m k : jsmap_keys (jsmap_delete k m) ⊆ jsmap_keys m.
Proof.
  unfold jsmap_keys. induction m as [|[k' v'] m IH]; simpl; [done|].
  case_decide; simpl.
  - intros x Hx. apply elem_of_cons. by right.
  - intros x [->|Hx]%elem_of_cons; apply elem_of_cons; auto.
Qed.

Lemma wf_delete m k : jsmap_wf m → jsmap_wf (jsmap_delete k m).
Proof.
  unfold jsmap_wf. induction m as [|[k' v'] m IH]; simpl; [done|].
  unfold jsmap_keys in *. simpl. rewrite NoDup_cons. intros [Hk Hm].
  case_decide; [done|]. simpl. apply NoDup_cons. split; [|auto].
  intros Hin. apply Hk. by apply (keys_delete_subseteq m k).
Qed.

Lemma get_delete_eq m k : jsmap_wf m → jsmap_get k (jsmap_delete k m) = None.
Proof.
  unfold jsmap_wf, jsmap_keys. induction m as [|[k' v'] m IH]; simpl; [done|].
  rewrite NoDup_cons. intros [Hk Hm]. case_decide as E; simpl.
  - subst k'. by apply get_None.
  - rewrite decide_False by done. auto.
Qed.

Lemma get_delete_ne m k k' :
  k ≠ k' → jsmap_get k' (jsmap_delete k m) = jsmap_get k' m.
Proof.
  intros Hne. induction m as [|[k0 v0] m IH]; simpl; [done|].
  case_decide as E; simpl.
  - subst k0. by rewrite decide_False.
  - by rewrite IH.
Qed.

Lemma keys_set m k v :
  ∀ x, x ∈ jsmap_keys (jsmap_set k v m) ↔ x = k ∨ x ∈ jsmap_keys m.
Proof.
  unfold jsmap_keys. induction m as [|[k' v'] m IH]; intros x; simpl.
  - rewrite list_elem_of_singleton. rewrite elem_of_nil. tauto.
  - case_decide as E; simpl; rewrite !elem_of_cons.
    + subst k'. tauto.
    + rewrite IH. tauto.
Qed.

Lemma wf_set m k v : jsmap_wf m → jsmap_wf (jsmap_set k v m).
Proof.
  unfold jsmap_wf. induction m as [|[k' v'] m IH]; simpl.
  - intros _. apply NoDup_singleton.
  - unfold jsmap_keys in *. simpl. rewrite NoDup_cons. intros [Hk Hm].
    case_decide as E; simpl; apply NoDup_cons.
    + subst k'. done.
    + split; [|auto]. intros Hin. apply (keys_set m k v) in Hin.
      destruct Hin; [congruence | done].
Qed.

Lemma get_filter (P : Z * V → Prop) `{!∀ e, Decision (P e)} m k v :
  jsmap_wf m →
  jsmap_get k (filter P m) = Some v ↔ jsmap_get k m = Some v ∧ P (k, v).
Proof.
  intros Hwf.
  assert (jsmap_wf (filter P m)) as Hwf'.
  { unfold jsmap_wf, jsmap_keys in *.
    eapply sublist_NoDup; [exact Hwf | apply fmap_sublist, sublist_filter]. }
  split.
  - intros Hg%get_Some_elem. apply list_elem_of_filter in Hg as [HP Hin].
    split; [by apply elem_get_Some | done].
  - intros [Hg%get_Some_elem HP]. apply elem_get_Some; [done|].
    apply list_elem_of_filter. done.
Qed.

End jsmap_facts.

(** ** Single handlers *)

Lemma with_ptyMap_same st : with_ptyMap (ptyMap st) st = st.
Proof. by destruct st. Qed.

Lemma delete_unregistered st id :
  jsmap_get id (ptyMap st) = None →
  with_ptyMap (jsmap_delete id (ptyMap st)) st = st.
Proof.
  intros H%get_None. rewrite delete_absent by done. apply with_ptyMap_same.
Qed.

(** C6: on an id that is not in [ptyMap], [handlePtyInput] and
    [handlePtyResize] log the advisory and do nothing else: they return
    normally, send nothing, call no terminal and leave the state, hence every
    session, as it was; so does [handleAsyncIpc] on such a message, after
    its own log line. *)
Theorem input_resize_absent_id st id data columns rows :
  jsmap_get id (ptyMap st) = None →
  handlePtyInput id data st =
    mkRun (Ok tt) st [ELog [LText WARNING_NO_TERMINAL]] ∧
  handlePtyResize id columns rows st =
    mkRun (Ok tt) st [ELog [LText WARNING_NO_TERMINAL]] ∧
  (∀ os event,
     handleAsyncIpc os event (PtyInput id data) st =
       mkRun (Ok tt) st
         [ELog [LText "Main IPC incoming: "; LMessage (PtyInput id data)];
          ELog [LText WARNING_NO_TERMINAL]] ∧
     handleAsyncIpc os event (PtyResize id columns rows) st =
       mkRun (Ok tt) st
         [ELog [LText "Main IPC incoming: ";
                LMessage (PtyResize id columns rows)];
          ELog [LText WARNING_NO_TERMINAL]]).
Proof.
  intros Hnone.
  assert (handlePtyInput id data st =
            mkRun (Ok tt) st [ELog [LText WARNING_NO_TERMINAL]]) as Hin.
  { unfold handlePtyInput, bind, get_state; simpl. by rewrite Hnone. }
  assert (handlePtyResize id columns rows st =
            mkRun (Ok tt) st [ELog [LText WARNING_NO_TERMINAL]]) as Hre.
  { unfold handlePtyResize, bind, get_state; simpl. by rewrite Hnone. }
  split; [exact Hin|]. split; [exact Hre|]. intros os event.
  cbv [handleAsyncIpc handlePtyInput handlePtyResize bind get_state log emit
       ret result final effects app].
  rewrite Hnone. split; reflexivity.
Qed.

Lemma input_resize_absent_id_witness :
  jsmap_get 7 (ptyMap Sample.three_sessions) = None ∧
  handlePtyInput 7 "ls" Sample.three_sessions =
    mkRun (Ok tt) Sample.three_sessions [ELog [LText WARNING_NO_TERMINAL]].
Proof.
  split; [reflexivity|].
  destruct (input_resize_absent_id Sample.three_sessions 7 "ls" 80 24 eq_refl)
    as (Hinput & _).
  exact Hinput.
Defined.

(** C5: the first [handlePtyClose] of a registered id destroys the terminal
    of the session, deletes the entry and no other, and sends no message; a
    [handlePtyClose] of an id that is not registered, which every further
    close of the same id is, logs the advisory once, returns normally and
    leaves the state as it was. *)
Theorem handlePtyClose_idempotent st id :
  jsmap_wf (ptyMap st) →
  let first := handlePtyClose id st in
  let second := handlePtyClose id (final first) in
  (∀ tup, jsmap_get id (ptyMap st) = Some tup →
     first = mkRun (Ok tt)
               (with_ptyMap (jsmap_delete id (ptyMap st)) st)
               [EDestroy (ptyTerm tup)] ∧
     sent (effects first) = [] ∧
     jsmap_get id (ptyMap (final first)) = None ∧
     ∀ k, k ≠ id →
       jsmap_get k (ptyMap (final first)) = jsmap_get k (ptyMap st)) ∧
  (jsmap_get id (ptyMap st) = None →
     first = mkRun (Ok tt) st [ELog [LText WARNING_NO_TERMINAL]]) ∧
  second = mkRun (Ok tt) (final first) [ELog [LText WARNING_NO_TERMINAL]].
Proof.
  intros Hwf first second.
  assert (∀ s, jsmap_get id (ptyMap s) = None →
            handlePtyClose id s =
              mkRun (Ok tt) s [ELog [LText WARNING_NO_TERMINAL]]) as Habsent.
  { intros s Hs. unfold handlePtyClose, bind, get_state; simpl. by rewrite Hs. }
  assert (jsmap_get id (ptyMap (final first)) = None) as Hgone.
  { subst first. destruct (jsmap_get id (ptyMap st)) as [tup|] eqn:E.
    - unfold handlePtyClose, bind, get_state; simpl. rewrite E; simpl.
      by apply get_delete_eq.
    - by rewrite Habsent. }
  split; [|split].
  - intros tup Htup. subst first.
    unfold handlePtyClose, bind, get_state in *; simpl in *.
    rewrite Htup in *; simpl in *.
    repeat split; [done|]. intros k Hk. by apply get_delete_ne.
  - apply Habsent.
  - by apply Habsent.
Qed.

Lemma handlePtyClose_idempotent_witness :
  jsmap_wf (ptyMap Sample.three_sessions) ∧
  handlePtyClose 2 (final (handlePtyClose 2 Sample.three_sessions)) =
    mkRun (Ok tt) (final (handlePtyClose 2 Sample.three_sessions))
          [ELog [LText WARNING_NO_TERMINAL]].
Proof.
  assert (jsmap_wf (ptyMap Sample.three_sessions)) as Hwf.
  { apply (bool_decide_unpack _). vm_compute. reflexivity. }
  split; [exact Hwf|].
  apply (handlePtyClose_idempotent Sample.three_sessions 2 Hwf).
Defined.

(** C7: when [pty.spawn] throws, [createPty] and [handlePtyCreate] throw to
    their caller at once, the state is as before (no session registered,
    [ptyCounter] not advanced), and [handleAsyncIpc] sends no message for the
    request. *)
Theorem spawn_failure_is_synchronous st sender0 command args columns rows :
  let r := createPty SpawnFails sender0 command args columns rows st in
  let h := handlePtyCreate SpawnFails sender0 command args columns rows st in
  let d := handleAsyncIpc SpawnFails {| sender := sender0 |}
             (CreatePtyRequestMessage command args columns rows) st in
  result r = Throw SpawnError ∧ final r = st ∧ sent (effects r) = [] ∧
  result h = Throw SpawnError ∧ final h = st ∧ sent (effects h) = [] ∧
  result d = Throw SpawnError ∧ final d = st ∧ sent (effects d) = [] ∧
  created_ids (dispatch (IpcMessage SpawnFails {| sender := sender0 |}
     (CreatePtyRequestMessage command args columns rows)) st).2 = [] ∧
  (dispatch (IpcMessage SpawnFails {| sender := sender0 |}
     (CreatePtyRequestMessage command args columns rows)) st).1 = st.
Proof. by repeat split. Qed.

(** C8: a message whose type is none of the [case] labels is logged by the
    incoming-message log line and dropped: the handler returns normally, the
    state is as before and nothing is sent. *)
Theorem unrecognized_message_dropped os event msg st :
  recognized (msg_type msg) = false →
  handleAsyncIpc os event msg st =
    mkRun (Ok tt) st [ELog [LText "Main IPC incoming: "; LMessage msg]] ∧
  sent (effects (handleAsyncIpc os event msg st)) = [] ∧
  dispatch (IpcMessage os event msg) st =
    (st, [ELog [LText "Main IPC incoming: "; LMessage msg]]).
Proof. destruct msg; simpl; intros [=]; done. Qed.

Lemma unrecognized_message_dropped_witness :
  handleAsyncIpc SpawnOk {| sender := Sample.wc1 |} (OtherMessage 99)
                 Sample.three_sessions =
    mkRun (Ok tt) Sample.three_sessions
      [ELog [LText "Main IPC incoming: "; LMessage (OtherMessage 99)]].
Proof.
  apply (unrecognized_message_dropped SpawnOk {| sender := Sample.wc1 |}
           (OtherMessage 99) Sample.three_sessions).
  reflexivity.
Defined.

(** ** Theme scan *)

Lemma scanThemes_loop_lookup themesdir contents : ∀ thememap item v,
  NoDup contents.*1 →
  (∀ i, i ∈ contents.*1 → thememap !! i = None) →
  (scanThemes_loop themesdir thememap contents).1 !! item = Some v ↔
  ((item, Parsed v) ∈ contents ∧ validateThemeInfo v = Ok true) ∨
  thememap !! item = Some v.
Proof.
  induction contents as [|[it file] rest IH]; intros thememap item v Hnd Hdisj.
  - simpl. rewrite elem_of_nil. tauto.
  - apply NoDup_cons in Hnd as [Hit Hrest]. simpl in *.
    destruct (scanThemes_item themesdir thememap it file) as [tm' out] eqn:E1.
    destruct (scanThemes_loop themesdir tm' rest) as [tm'' out'] eqn:E2.
    simpl.
    assert (thememap !! it = None) as Hfresh.
    { apply Hdisj, elem_of_cons. by left. }
    assert (tm' = thememap ∨
            ∃ ti, file = Parsed ti ∧ validateThemeInfo ti = Ok true ∧
                  tm' = <[it := ti]> thememap) as Hstep.
    { unfold scanThemes_item in E1. destruct file as [| text | ti].
      - injection E1 as <- <-. by left.
      - injection E1 as <- <-. by left.
      - destruct (validateThemeInfo ti) as [[|]|] eqn:Ev;
          injection E1 as <- <-; [right; by exists ti | by left | by left]. }
    assert (∀ i, i ∈ rest.*1 → tm' !! i = None) as Hdisj'.
    { intros i Hi. assert (i ≠ it) by (intros ->; done).
      assert (thememap !! i = None) by (apply Hdisj, elem_of_cons; by right).
      destruct Hstep as [->|(ti & _ & _ & ->)]; [done|].
      by rewrite lookup_insert_ne. }
    pose proof (IH tm' item v Hrest Hdisj') as IHi. rewrite E2 in IHi.
    simpl in IHi. rewrite IHi. clear IHi. rewrite elem_of_cons.
    assert ((item, Parsed v) ∈ rest → item ≠ it) as Hne.
    { intros Hin ->. apply Hit. apply list_elem_of_fmap. by eexists (_, _). }
    destruct Hstep as [->|(ti & -> & Hv & ->)].
    + split; [tauto|]. intros [[[E|Hin] Hval]|Hl]; [|tauto|tauto].
      injection E as Ei Ef. subst item file.
      unfold scanThemes_item in E1. simpl in E1.
      rewrite Hval in E1. injection E1 as E1 _.
      rewrite <- E1 in Hfresh. by rewrite lookup_insert_eq in Hfresh.
    + rewrite lookup_insert_Some. split.
      * intros [[Hin Hval]|[[-> ->]|[Hn Hl]]]; [tauto| |tauto].
        left. split; [by left | done].
      * intros [[[E|Hin] Hval]|Hl].
        -- injection E as Ei Ef. subst item v. right. by left.
        -- left. done.
        -- right. right. split; [|done]. intros ->. congruence.
Qed.

(** For a themes directory that can be listed, the scan returns a map that
    holds exactly the entries whose [theme.json] parses to a value with a
    non-empty string [name], under the name of the entry. *)
Lemma scanThemes_listed themesdir contents :
  NoDup contents.*1 →
  ∃ thememap out,
    scanThemes themesdir (DirContents contents) = (Ok (Some thememap), out) ∧
    ∀ item v, thememap !! item = Some v ↔
      (item, Parsed v) ∈ contents ∧ validateThemeInfo v = Ok true.
Proof.
  intros Hnd. unfold scanThemes.
  pose proof (scanThemes_loop_lookup themesdir contents ∅) as Hl.
  destruct (scanThemes_loop themesdir ∅ contents) as [tm out] eqn:E.
  exists tm, out. split; [done|]. intros item v.
  rewrite (Hl item v Hnd) by (intros; apply lookup_empty).
  rewrite lookup_empty. split; [intros [?|?]; [done|congruence] | by left].
Qed.

Lemma validateThemeInfo_true themeinfo :
  validateThemeInfo themeinfo = Ok true ↔
  ∃ members s, themeinfo = JObject members ∧
               own_property "name" members = Some (JString s) ∧ s ≠ EmptyString.
Proof.
  unfold validateThemeInfo, get_name. split.
  - destruct themeinfo as [| | | | |members]; try done.
    destruct (own_property "name" members) as [[| | |s| |]|] eqn:E; try done.
    simpl. intros [= H%bool_decide_eq_true]. by exists members, s.
  - intros (members & s & -> & -> & Hs). simpl. by rewrite bool_decide_true.
Qed.

(** C9: for a themes directory that does not exist, [scanThemes] reaches the
    end of its body without a [return]: the result is [undefined], not a map;
    for one that exists and cannot be listed, it throws. *)
Theorem scanThemes_missing_directory themesdir :
  scanThemes themesdir DirMissing = (Ok None, []) ∧
  scanThemes themesdir DirUnlistable = (Throw FsError, []).
Proof. done. Qed.

(** ** Tip viewer *)

Section tip_index.
Import TipViewer.

(** C10: with [n > 0] tips and an index in [0, n), the next and the previous
    button undo each other and keep the index in [0, n). *)
Theorem tip_next_previous_inverse (tipData : list string) (this : TipViewer) :
  0 < _getTipCount tipData →
  0 ≤ _tipIndex this < _getTipCount tipData →
  previous_click tipData (next_click tipData this) = this ∧
  next_click tipData (previous_click tipData this) = this ∧
  0 ≤ _tipIndex (next_click tipData this) < _getTipCount tipData ∧
  0 ≤ _tipIndex (previous_click tipData this) < _getTipCount tipData.
Proof.
  destruct this as [i]. unfold next_click, previous_click, js_mod; simpl.
  set (n := _getTipCount tipData). intros Hn Hi.
  assert (Z.rem (i + 1) n = if decide (i + 1 = n) then 0 else i + 1) as Hnext.
  { destruct (decide (i + 1 = n)) as [E|E].
    - rewrite E. apply Z.rem_same. lia.
    - apply Z.rem_small. lia. }
  assert (Z.rem (i + n - 1) n = if decide (i = 0) then n - 1 else i - 1)
    as Hprev.
  { destruct (decide (i = 0)) as [E|E].
    - rewrite E. apply Z.rem_small. lia.
    - rewrite Z.rem_mod_nonneg by lia.
      replace (i + n - 1) with (i - 1 + 1 * n) by lia.
      rewrite Z.mod_add by lia. apply Z.mod_small. lia. }
  rewrite Hnext, Hprev. clear Hnext Hprev.
  repeat split.
  - f_equal. destruct (decide (i + 1 = n)) as [E|E].
    + rewrite Z.add_0_l. rewrite Z.rem_small by lia. lia.
    + rewrite Z.rem_mod_nonneg by lia.
      replace (i + 1 + n - 1) with (i + 1 * n) by lia.
      rewrite Z.mod_add by lia. apply Z.mod_small. lia.
  - f_equal. destruct (decide (i = 0)) as [E|E].
    + rewrite E. replace (n - 1 + 1) with n by lia. apply Z.rem_same. lia.
    + replace (i - 1 + 1) with i by lia. apply Z.rem_small. lia.
  - case_decide; lia.
  - case_decide; lia.
  - case_decide; lia.
  - case_decide; lia.
Qed.

Lemma tip_next_previous_inverse_witness :
  previous_click ["a"; "b"; "c"] (next_click ["a"; "b"; "c"] {| _tipIndex := 2 |})
    = {| _tipIndex := 2 |} ∧
  next_click ["a"; "b"; "c"] (previous_click ["a"; "b"; "c"] {| _tipIndex := 0 |})
    = {| _tipIndex := 0 |}.
Proof.
  split.
  - apply (tip_next_previous_inverse ["a"; "b"; "c"] {| _tipIndex := 2 |});
      vm_compute; [reflexivity | split; [discriminate | reflexivity]].
  - apply (tip_next_previous_inverse ["a"; "b"; "c"] {| _tipIndex := 0 |});
      vm_compute; [reflexivity | split; [discriminate | reflexivity]].
Defined.

End tip_index.

(** ** Loops and state updates *)

Lemma forEach_steps {A} (R : State → State → list Effect → Prop)
    (f : A → M unit) :
  (∀ st, R st st []) →
  (∀ s1 s2 s3 o1 o2, R s1 s2 o1 → R s2 s3 o2 → R s1 s3 (o1 ++ o2)) →
  (∀ x st, R st (final (f x st)) (effects (f x st))) →
  ∀ xs st, R st (final (forEach xs f st)) (effects (forEach xs f st)).
Proof.
  intros Hrefl Htrans Hf. induction xs as [|x xs IH]; intros st; simpl.
  - apply Hrefl.
  - unfold bind. pose proof (Hf x st) as Hx.
    destruct (result (f x st)); simpl; [|done].
    eapply Htrans; [exact Hx | apply IH].
Qed.

Lemma created_ids_app o1 o2 :
  created_ids (o1 ++ o2) = created_ids o1 ++ created_ids o2.
Proof. apply omap_app. Qed.

Lemma destroyed_fmap {A} (f : A → Terminal) (xs : list A) :
  destroyed ((λ x, EDestroy (f x)) <$> xs) = f <$> xs.
Proof. induction xs as [|x xs IH]; simpl; [done|]. by f_equal. Qed.

(** ** Window cleanup *)

Section cleanup.
Variable window : BrowserWindow.

Let owned (e : Z * PtyTuple) : Prop := windowId e.2 = win_id window.
Let foreign (e : Z * PtyTuple) : Prop := windowId e.2 ≠ win_id window.

Lemma cleanup_loop : ∀ rest kept st,
  ptyMap st = kept ++ rest →
  jsmap_wf (kept ++ rest) →
  forEach (jsmap_keys rest) (cleanUpPtyWindow_visit window) st =
    mkRun (Ok tt)
      (with_ptyMap (kept ++ filter foreign rest) st)
      ((λ e, EDestroy (ptyTerm e.2)) <$> filter owned rest).
Proof.
  induction rest as [|[k tup] rest IH]; intros kept st Hmap Hwf.
  - simpl. unfold ret. rewrite filter_nil, <- Hmap, with_ptyMap_same. done.
  - assert (k ∉ jsmap_keys kept) as Hk.
    { unfold jsmap_wf, jsmap_keys in *. rewrite fmap_app in Hwf.
      apply NoDup_app in Hwf as (_ & Hdisj & _). intros Hin.
      apply (Hdisj k Hin). simpl. apply elem_of_cons. by left. }
    assert (jsmap_get k (ptyMap st) = Some tup) as Hget.
    { rewrite Hmap, get_app. apply get_None in Hk. rewrite Hk. simpl.
      by rewrite decide_True. }
    assert (jsmap_delete k (ptyMap st) = kept ++ rest) as Hdel.
    { rewrite Hmap, delete_app_r by done. simpl. by rewrite decide_True. }
    simpl. unfold bind at 1. unfold cleanUpPtyWindow_visit at 1.
    unfold bind at 1. unfold get_state at 1. simpl. rewrite Hget.
    rewrite !filter_cons. simpl.
    destruct (decide (windowId tup = win_id window)) as [E|E].
    + unfold owned, foreign. simpl.
      rewrite (decide_True (P := windowId tup = win_id window)) by done.
      rewrite (decide_False (P := windowId tup ≠ win_id window))
        by (intros Hn; by apply Hn).
      simpl. rewrite Hdel.
      rewrite (IH kept (with_ptyMap (kept ++ rest) st)); [done|done|].
      unfold jsmap_wf, jsmap_keys in *. rewrite fmap_app in *. simpl in Hwf.
      apply NoDup_app in Hwf as (H1 & H2 & H3). apply NoDup_cons in H3 as [_ H3].
      apply NoDup_app. repeat split; [done| |done].
      intros x Hx Hx'. apply (H2 x Hx), elem_of_cons. by right.
    + unfold owned, foreign. simpl.
      rewrite (decide_False (P := windowId tup = win_id window)) by done.
      rewrite (decide_True (P := windowId tup ≠ win_id window)) by done.
      simpl. rewrite (IH (kept ++ [(k, tup)]) st).
      * by rewrite <- app_assoc.
      * by rewrite <- app_assoc.
      * by rewrite <- app_assoc.
Qed.

(** C1: on a registry in which a key occurs once, [cleanUpPtyWindow] returns
    normally; the sessions left are exactly those of other windows, each with
    the entry it had and in the order they had; the terminals destroyed are
    exactly those of the sessions of the closed window, once each; nothing
    else is called and no other part of the state changes. *)
Theorem cleanUpPtyWindow_exact st :
  jsmap_wf (ptyMap st) →
  let r := cleanUpPtyWindow window st in
  result r = Ok tt ∧
  final r = with_ptyMap (filter (λ e, windowId e.2 ≠ win_id window) (ptyMap st)) st ∧
  effects r = (λ e, EDestroy (ptyTerm e.2)) <$>
                filter (λ e, windowId e.2 = win_id window) (ptyMap st) ∧
  (∀ k tup, jsmap_get k (ptyMap (final r)) = Some tup ↔
            jsmap_get k (ptyMap st) = Some tup ∧ windowId tup ≠ win_id window) ∧
  (∀ k tup, jsmap_get k (ptyMap st) = Some tup →
            windowId tup = win_id window →
            jsmap_get k (ptyMap (final r)) = None ∧
            ptyTerm tup ∈ destroyed (effects r)) ∧
  (∀ t, t ∈ destroyed (effects r) →
        ∃ k tup, jsmap_get k (ptyMap st) = Some tup ∧
                 windowId tup = win_id window ∧ ptyTerm tup = t).
Proof.
  intros Hwf r.
  assert (r = mkRun (Ok tt)
            (with_ptyMap (filter foreign (ptyMap st)) st)
            ((λ e, EDestroy (ptyTerm e.2)) <$> filter owned (ptyMap st))) as Hr.
  { subst r. unfold cleanUpPtyWindow, bind at 1, get_state at 1. simpl.
    rewrite (cleanup_loop (ptyMap st) [] st); done. }
  rewrite Hr. simpl. clear Hr r.
  assert (∀ k tup, jsmap_get k (filter foreign (ptyMap st)) = Some tup ↔
            jsmap_get k (ptyMap st) = Some tup ∧ windowId tup ≠ win_id window)
    as Hleft.
  { intros k tup. by rewrite (get_filter foreign). }
  split; [done|]. split; [done|]. split; [done|]. split; [exact Hleft|].
  split.
  - intros k tup Hget Hown. split.
    + destruct (jsmap_get k (filter foreign (ptyMap st))) as [tup'|] eqn:E;
        [|done].
      apply Hleft in E as [E1 E2]. congruence.
    + rewrite destroyed_fmap. apply list_elem_of_fmap. exists (k, tup).
      split; [done|]. apply list_elem_of_filter. split; [done|].
      by apply get_Some_elem.
  - intros t. rewrite destroyed_fmap.
    intros ([k tup] & -> & Hin)%list_elem_of_fmap.
    apply list_elem_of_filter in Hin as [Ho Hin].
    exists k, tup. split; [by apply elem_get_Some | done].
Qed.

End cleanup.

Lemma cleanUpPtyWindow_exact_witness :
  jsmap_wf (ptyMap Sample.three_sessions) ∧
  jsmap_keys (ptyMap (final (cleanUpPtyWindow Sample.win1 Sample.three_sessions)))
    = [3] ∧
  effects (cleanUpPtyWindow Sample.win1 Sample.three_sessions)
    = [EDestroy 0%nat; EDestroy 1%nat].
Proof.
  assert (jsmap_wf (ptyMap Sample.three_sessions)) as Hwf.
  { apply (bool_decide_unpack _). vm_compute. reflexivity. }
  destruct (cleanUpPtyWindow_exact Sample.win1 Sample.three_sessions Hwf)
    as (_ & Hfinal & Heff & _).
  split; [exact Hwf|]. split.
  - rewrite Hfinal. reflexivity.
  - rewrite Heff. reflexivity.
Defined.

(** ** Session ids *)

Lemma quiet_refl st : quiet st st [].
Proof. done. Qed.

Lemma quiet_trans s1 s2 s3 o1 o2 :
  quiet s1 s2 o1 → quiet s2 s3 o2 → quiet s1 s3 (o1 ++ o2).
Proof.
  intros [H1 H2] [H3 H4]. split; [congruence|].
  by rewrite created_ids_app, H2, H4.
Qed.

Lemma on_data_quiet data l st :
  quiet st (final (on_data l data st)) (effects (on_data l data st)).
Proof. done. Qed.

Lemma on_exit_quiet l st :
  quiet st (final (on_exit l st)) (effects (on_exit l st)).
Proof. done. Qed.

Lemma cleanUpPtyWindow_visit_quiet window k st :
  quiet st (final (cleanUpPtyWindow_visit window k st))
        (effects (cleanUpPtyWindow_visit window k st)).
Proof.
  unfold cleanUpPtyWindow_visit, bind, get_state; simpl.
  destruct (jsmap_get k (ptyMap st)) as [tup|]; [|done].
  by destruct (decide (windowId tup = win_id window)).
Qed.

Lemma createPty_ok sender0 file args cols rows st :
  let r := createPty SpawnOk sender0 file args cols rows st in
  result r = Ok (ptyCounter st + 1) ∧
  ptyCounter (final r) = ptyCounter st + 1 ∧
  jsmap_get (ptyCounter st + 1) (ptyMap (final r)) =
    Some {| windowId := win_id (fromWebContents sender0);
            ptyTerm := spawned st |}.
Proof.
  unfold createPty, bind, pty_spawn, get_state; simpl.
  repeat split. apply get_set_eq.
Qed.

(** One event either leaves the counter and announces nothing, or advances
    the counter by one and announces the new value. *)
Lemma dispatch_counter ev st :
  quiet st (dispatch ev st).1 (dispatch ev st).2 ∨
  (ptyCounter (dispatch ev st).1 = ptyCounter st + 1 ∧
   created_ids (dispatch ev st).2 = [ptyCounter st + 1]).
Proof.
  assert (∀ (r : Run unit),
            quiet st (final r) (effects r) →
            quiet st
              (match result r with
               | Ok _ => (final r, effects r)
               | Throw e => (final r, effects r ++ [EUncaught e])
               end).1
              (match result r with
               | Ok _ => (final r, effects r)
               | Throw e => (final r, effects r ++ [EUncaught e])
               end).2) as Hwrap.
  { intros r [H1 H2]. destruct (result r); simpl; [done|].
    split; [done|]. by rewrite created_ids_app, H2. }
  destruct ev as [os event msg | term data | term | window].
  - destruct msg; try (left; done).
    + destruct os; [right; done | left; done].
    + left. unfold dispatch, handle, handleAsyncIpc, handlePtyResize, bind,
        get_state; simpl.
      by destruct (jsmap_get id (ptyMap st)).
    + left. unfold dispatch, handle, handleAsyncIpc, handlePtyInput, bind,
        get_state; simpl.
      by destruct (jsmap_get id (ptyMap st)).
    + left. unfold dispatch, handle, handleAsyncIpc, handlePtyClose, bind,
        get_state; simpl.
      by destruct (jsmap_get id (ptyMap st)).
  - left. unfold dispatch. apply Hwrap.
    unfold handle, bind at 1, get_state at 1. simpl.
    apply (forEach_steps quiet);
      [apply quiet_refl | apply quiet_trans | apply on_data_quiet].
  - left. unfold dispatch. apply Hwrap.
    unfold handle, bind at 1, get_state at 1. simpl.
    apply (forEach_steps quiet);
      [apply quiet_refl | apply quiet_trans | apply on_exit_quiet].
  - left. unfold dispatch. apply Hwrap.
    unfold handle, cleanUpPtyWindow, bind at 1, get_state at 1. simpl.
    apply (forEach_steps quiet);
      [apply quiet_refl | apply quiet_trans
      | apply cleanUpPtyWindow_visit_quiet].
Qed.

Lemma run_cons ev evs st :
  run (ev :: evs) st =
    ((run evs (dispatch ev st).1).1,
     (dispatch ev st).2 ++ (run evs (dispatch ev st).1).2).
Proof.
  simpl. destruct (dispatch ev st) as [st' out]. simpl.
  by destruct (run evs st') as [st'' out'].
Qed.

Lemma run_app evs1 evs2 st :
  run (evs1 ++ evs2) st =
    ((run evs2 (run evs1 st).1).1,
     (run evs1 st).2 ++ (run evs2 (run evs1 st).1).2).
Proof.
  revert st. induction evs1 as [|ev evs1 IH]; intros st.
  - simpl. by destruct (run evs2 st).
  - rewrite <- app_comm_cons, !run_cons, IH. simpl. by rewrite app_assoc.
Qed.

Lemma run_counter evs : ∀ st,
  ptyCounter st ≤ ptyCounter (run evs st).1 ∧
  Forall (λ id, ptyCounter st < id ≤ ptyCounter (run evs st).1)
         (created_ids (run evs st).2) ∧
  StronglySorted Z.lt (created_ids (run evs st).2).
Proof.
  induction evs as [|ev evs IH]; intros st.
  - simpl. repeat split; [lia | constructor | constructor].
  - rewrite run_cons. simpl. rewrite created_ids_app.
    destruct (IH (dispatch ev st).1) as (Hle & Hall & Hsorted).
    destruct (dispatch_counter ev st) as [[Hc Hids]|[Hc Hids]];
      rewrite Hids; rewrite Hc in *; simpl.
    + done.
    + split; [lia|]. split.
      * constructor; [lia|]. eapply Forall_impl; [exact Hall|].
        simpl. intros; lia.
      * constructor; [done|]. eapply Forall_impl; [exact Hall|].
        simpl. intros; lia.
Qed.

(** C2: over any sequence of events, from any state, the ids handed out by
    [createPty] are strictly increasing in call order, hence pairwise
    distinct, and all above the counter at the start; whatever happens next,
    removals included, every id handed out later is above every id handed out
    before, so no id is handed out twice. *)
Theorem created_ids_strictly_increasing evs st :
  StronglySorted Z.lt (created_ids (run evs st).2) ∧
  NoDup (created_ids (run evs st).2) ∧
  Forall (λ id, ptyCounter st < id) (created_ids (run evs st).2) ∧
  ∀ later,
    Forall (λ id', Forall (λ id, id < id') (created_ids (run evs st).2))
           (created_ids (run later (run evs st).1).2).
Proof.
  destruct (run_counter evs st) as (Hle & Hall & Hsorted).
  split; [done|]. split; [|split].
  - clear Hall. induction Hsorted as [|id ids Hs IH Hlt]; constructor; [|done].
    intros Hin. rewrite Forall_forall in Hlt. specialize (Hlt id Hin). lia.
  - eapply Forall_impl; [exact Hall|]. simpl. intros; lia.
  - intros later.
    destruct (run_counter later (run evs st).1) as (_ & Hall' & _).
    eapply Forall_impl; [exact Hall'|]. simpl. intros id' Hid'.
    eapply Forall_impl; [exact Hall|]. simpl. intros; lia.
Qed.

(** ** Reachable states *)

Lemma Inv_initial dir cfg ths : Inv (initial dir cfg ths).
Proof.
  split; simpl.
  - apply NoDup_nil_2.
  - intros k H. by apply elem_of_nil in H.
  - intros l H. by apply elem_of_nil in H.
  - apply NoDup_nil_2.
  - apply NoDup_nil_2.
  - done.
Qed.

Lemma Inv_delete st k :
  Inv st → Inv (with_ptyMap (jsmap_delete k (ptyMap st)) st).
Proof.
  intros [Hwf Hkeys Hls Hids Hterms Hown]. split; simpl; try done.
  - by apply wf_delete.
  - intros k' Hk'. apply Hkeys. by apply (keys_delete_subseteq (ptyMap st) k).
  - intros k' tup Hget. apply Hown.
    destruct (decide (k = k')) as [->|Hne].
    + by rewrite get_delete_eq in Hget.
    + by rewrite get_delete_ne in Hget.
Qed.

Lemma Inv_create st sender0 file args cols rows :
  Inv st → Inv (final (createPty SpawnOk sender0 file args cols rows st)).
Proof.
  intros [Hwf Hkeys Hls Hids Hterms Hown].
  unfold createPty, bind, pty_spawn, get_state; simpl.
  split; simpl.
  - by apply wf_set.
  - intros k [->|Hk]%keys_set; [lia|]. apply Hkeys in Hk. lia.
  - intros l [Hl|Hl]%elem_of_app.
    + apply Hls in Hl. lia.
    + apply list_elem_of_singleton in Hl as ->. simpl. lia.
  - rewrite fmap_app. apply NoDup_app. split; [done|]. split.
    + intros id Hid. simpl. rewrite list_elem_of_singleton. intros ->.
      apply list_elem_of_fmap in Hid as (l & Hl & Hin).
      apply Hls in Hin. lia.
    + simpl. apply NoDup_singleton.
  - rewrite fmap_app. apply NoDup_app. split; [done|]. split.
    + intros t Ht. simpl. rewrite list_elem_of_singleton. intros ->.
      apply list_elem_of_fmap in Ht as (l & Hl & Hin).
      apply Hls in Hin. lia.
    + simpl. apply NoDup_singleton.
  - intros k tup Hget.
    destruct (decide (ptyCounter st + 1 = k)) as [<-|Hne].
    + rewrite get_set_eq in Hget. injection Hget as <-.
      eexists. split; [apply elem_of_app; right; by apply list_elem_of_singleton|].
      done.
    + rewrite get_set_ne in Hget by done.
      destruct (Hown k tup Hget) as (l & Hl & Hrest).
      exists l. split; [apply elem_of_app; by left | done].
Qed.

Lemma dispatch_final ev st : (dispatch ev st).1 = final (handle ev st).
Proof. unfold dispatch. by destruct (result (handle ev st)). Qed.

Lemma forEach_Inv {A} (f : A → M unit) :
  (∀ x st, Inv st → Inv (final (f x st))) →
  ∀ xs st, Inv st → Inv (final (forEach xs f st)).
Proof.
  intros Hf xs st.
  apply (forEach_steps (λ s s' _, Inv s → Inv s') f); auto.
Qed.

Lemma Inv_dispatch ev st : Inv st → Inv (dispatch ev st).1.
Proof.
  intros HI. rewrite dispatch_final.
  destruct ev as [os event msg | term data | term | window].
  - destruct msg; try done.
    + destruct os; [|done].
      by apply (Inv_create st (sender event) command args columns rows) in HI.
    + unfold handle, handleAsyncIpc, handlePtyResize, bind, get_state; simpl.
      by destruct (jsmap_get id (ptyMap st)).
    + unfold handle, handleAsyncIpc, handlePtyInput, bind, get_state; simpl.
      by destruct (jsmap_get id (ptyMap st)).
    + unfold handle, handleAsyncIpc, handlePtyClose, bind, get_state; simpl.
      destruct (jsmap_get id (ptyMap st)); simpl; [|done].
      by apply Inv_delete.
  - unfold handle, bind at 1, get_state at 1. simpl.
    by apply forEach_Inv.
  - unfold handle, bind at 1, get_state at 1. simpl.
    apply forEach_Inv; [|done]. intros l s Hs. by apply Inv_delete.
  - unfold handle, cleanUpPtyWindow, bind at 1, get_state at 1. simpl.
    apply forEach_Inv; [|done]. intros k s Hs.
    unfold cleanUpPtyWindow_visit, bind, get_state; simpl.
    destruct (jsmap_get k (ptyMap s)) as [tup|]; [|done].
    destruct (decide (windowId tup = win_id window)); simpl; [|done].
    by apply Inv_delete.
Qed.

Lemma Inv_run evs : ∀ st, Inv st → Inv (run evs st).1.
Proof.
  induction evs as [|ev evs IH]; intros st HI; [done|].
  rewrite run_cons. simpl. by apply IH, Inv_dispatch.
Qed.

Lemma reachable_Inv st : reachable st → Inv st.
Proof.
  intros (dir & cfg & ths & evs & ->). apply Inv_run, Inv_initial.
Qed.

Lemma reachable_dispatch ev st : reachable st → reachable (dispatch ev st).1.
Proof.
  intros (dir & cfg & ths & evs & ->). exists dir, cfg, ths, (evs ++ [ev]).
  rewrite run_app. simpl.
  by destruct (dispatch ev (run evs (initial dir cfg ths)).1).
Qed.

(** A terminal has the one listener [createPty] installed on it. *)
Lemma listeners_of_unique st l :
  Inv st → l ∈ listeners st → listeners_of (l_term l) st = [l].
Proof.
  intros HI. unfold listeners_of. pose proof (inv_terms st HI) as Hnd.
  induction (listeners st) as [|l' ls IH]; [intros H; by apply elem_of_nil in H|].
  simpl in Hnd. apply NoDup_cons in Hnd as [Hl' Hls].
  rewrite filter_cons. intros [->|Hin]%elem_of_cons.
  - rewrite decide_True by done. f_equal.
    destruct (filter (λ l0, l_term l0 = l_term l') ls) as [|x xs] eqn:E;
      [done|].
    exfalso. assert (x ∈ filter (λ l0, l_term l0 = l_term l') ls) as Hx
      by (rewrite E; apply elem_of_cons; by left).
    apply list_elem_of_filter in Hx as [Hterm Hx].
    apply Hl'. rewrite <- Hterm. apply list_elem_of_fmap. by exists x.
  - rewrite decide_False; [by apply IH|]. intros Hterm.
    apply Hl'. rewrite Hterm. apply list_elem_of_fmap. by exists l.
Qed.

Lemma session_listener st id tup :
  Inv st → jsmap_get id (ptyMap st) = Some tup →
  ∃ l, l ∈ listeners st ∧ l_ptyId l = id ∧ l_term l = ptyTerm tup ∧
       win_id (fromWebContents (l_sender l)) = windowId tup ∧
       listeners_of (ptyTerm tup) st = [l].
Proof.
  intros HI Hget.
  destruct (inv_owner st HI id tup Hget) as (l & Hl & Hid & Hterm & Hwin).
  exists l. repeat split; try done.
  rewrite <- Hterm. by apply listeners_of_unique.
Qed.

(** ** Terminal events *)

Lemma handle_exit_unique st l :
  Inv st → l ∈ listeners st →
  handle (TermExit (l_term l)) st =
    mkRun (Ok tt) (with_ptyMap (jsmap_delete (l_ptyId l) (ptyMap st)) st)
      [ELog [LText "pty process exited."];
       ESend (l_sender l) (PtyClose (l_ptyId l));
       EDestroy (l_term l)].
Proof.
  intros HI Hl. unfold handle, bind at 1, get_state at 1. simpl.
  by rewrite listeners_of_unique.
Qed.

Lemma handle_data_unique st l data :
  Inv st → l ∈ listeners st →
  handle (TermData (l_term l) data) st =
    mkRun (Ok tt) st
      [ELog [LText "pty process got data for ptyID="; LNumber (l_ptyId l)];
       ELog [LEscaped data];
       ESend (l_sender l) (PtyOutput (l_ptyId l) data)].
Proof.
  intros HI Hl. unfold handle, bind at 1, get_state at 1. simpl.
  by rewrite listeners_of_unique.
Qed.

(** C3: when the terminal of a registered session signals exit, the handler
    returns normally after one log line, one Close message with the id of the
    session, sent to the web contents of the window that owns the session,
    and one [destroy] of the terminal of the session; the entry of the session
    is deleted and no other entry changes. *)
Theorem exit_event_closes_session st id tup :
  reachable st →
  jsmap_get id (ptyMap st) = Some tup →
  ∃ owner,
    win_id (fromWebContents owner) = windowId tup ∧
    handle (TermExit (ptyTerm tup)) st =
      mkRun (Ok tt) (with_ptyMap (jsmap_delete id (ptyMap st)) st)
        [ELog [LText "pty process exited."];
         ESend owner (PtyClose id);
         EDestroy (ptyTerm tup)] ∧
    sent (effects (handle (TermExit (ptyTerm tup)) st)) =
      [(owner, PtyClose id)] ∧
    destroyed (effects (handle (TermExit (ptyTerm tup)) st)) = [ptyTerm tup] ∧
    ¬ registered id (final (handle (TermExit (ptyTerm tup)) st)) ∧
    ∀ k, k ≠ id →
      jsmap_get k (ptyMap (final (handle (TermExit (ptyTerm tup)) st))) =
      jsmap_get k (ptyMap st).
Proof.
  intros HI%reachable_Inv Hget.
  destruct (session_listener st id tup HI Hget)
    as (l & Hl & Hid & Hterm & Hwin & _).
  exists (l_sender l). split; [done|].
  rewrite <- Hterm, (handle_exit_unique st l HI Hl), Hid. simpl.
  repeat split.
  - unfold registered. simpl. rewrite get_delete_eq by apply HI.
    by intros [? ?].
  - intros k Hk. by apply get_delete_ne.
Qed.

Lemma exit_event_closes_session_witness :
  reachable Sample.three_sessions ∧
  jsmap_get 2 (ptyMap Sample.three_sessions)
    = Some {| windowId := 1; ptyTerm := 1%nat |} ∧
  ∃ owner,
    win_id (fromWebContents owner) = 1 ∧
    handle (TermExit 1%nat) Sample.three_sessions =
      mkRun (Ok tt)
        (with_ptyMap (jsmap_delete 2 (ptyMap Sample.three_sessions))
                     Sample.three_sessions)
        [ELog [LText "pty process exited."];
         ESend owner (PtyClose 2);
         EDestroy 1%nat].
Proof.
  assert (reachable Sample.three_sessions) as Hreach.
  { exists "/app", Sample.cfg, ∅,
      [Sample.create Sample.wc1; Sample.create Sample.wc1;
       Sample.create Sample.wc2].
    reflexivity. }
  split; [exact Hreach|]. split; [reflexivity|].
  destruct (exit_event_closes_session Sample.three_sessions 2
              {| windowId := 1; ptyTerm := 1%nat |} Hreach eq_refl)
    as (owner & Hwin & Hrun & _).
  exists owner. split; [exact Hwin | exact Hrun].
Defined.

(** C4, as the code has it: the listeners do not look at the registry.  An
    output event of the terminal of a removed session still sends one Output
    message with its id and an exit event one Close message with its id,
    followed by a second [destroy]; both handlers return normally and leave
    the state as it was. *)
Theorem late_events_are_forwarded st l data :
  reachable st →
  removed l st →
  handle (TermData (l_term l) data) st =
    mkRun (Ok tt) st
      [ELog [LText "pty process got data for ptyID="; LNumber (l_ptyId l)];
       ELog [LEscaped data];
       ESend (l_sender l) (PtyOutput (l_ptyId l) data)] ∧
  handle (TermExit (l_term l)) st =
    mkRun (Ok tt) st
      [ELog [LText "pty process exited."];
       ESend (l_sender l) (PtyClose (l_ptyId l));
       EDestroy (l_term l)].
Proof.
  intros HI%reachable_Inv [Hl Hgone]. split.
  - by apply handle_data_unique.
  - rewrite handle_exit_unique by done.
    rewrite delete_unregistered; [done|].
    by apply eq_None_not_Some.
Qed.

Lemma closed_session_reachable : reachable Sample.closed_session.
Proof.
  exists "/app", Sample.cfg, ∅,
    [Sample.create Sample.wc1; Sample.close Sample.wc1 1].
  reflexivity.
Qed.

Lemma closed_session_removed :
  removed {| l_term := 0%nat; l_sender := Sample.wc1; l_ptyId := 1 |}
          Sample.closed_session.
Proof.
  split.
  - apply list_elem_of_singleton. reflexivity.
  - intros [tup Htup]. discriminate Htup.
Qed.

Lemma late_events_are_forwarded_witness :
  handle (TermData 0%nat "hi") Sample.closed_session =
    mkRun (Ok tt) Sample.closed_session
      [ELog [LText "pty process got data for ptyID="; LNumber 1];
       ELog [LEscaped "hi"];
       ESend Sample.wc1 (PtyOutput 1 "hi")] ∧
  handle (TermExit 0%nat) Sample.closed_session =
    mkRun (Ok tt) Sample.closed_session
      [ELog [LText "pty process exited."];
       ESend Sample.wc1 (PtyClose 1);
       EDestroy 0%nat].
Proof.
  apply (late_events_are_forwarded Sample.closed_session
           {| l_term := 0%nat; l_sender := Sample.wc1; l_ptyId := 1 |} "hi").
  - exists "/app", Sample.cfg, ∅,
      [Sample.create Sample.wc1; Sample.close Sample.wc1 1].
    reflexivity.
  - split.
    + apply list_elem_of_singleton. reflexivity.
    + intros [tup Htup]. discriminate Htup.
Defined.

(** C4, as the specification has it, fails: session 1 is created and closed,
    then its terminal produces output and exits; both events send a message
    that carries id 1. *)
Lemma late_events_not_dropped :
  ¬ registered 1 Sample.closed_session ∧
  sent (dispatch (TermData 0%nat "hi") Sample.closed_session).2 =
    [(Sample.wc1, PtyOutput 1 "hi")] ∧
  sent (dispatch (TermExit 0%nat) Sample.closed_session).2 =
    [(Sample.wc1, PtyClose 1)] ∧
  ¬ late_events_dropped.
Proof.
  split; [apply closed_session_removed|].
  split; [reflexivity|]. split; [reflexivity|].
  intros Hclaim.
  apply (Hclaim Sample.closed_session
           {| l_term := 0%nat; l_sender := Sample.wc1; l_ptyId := 1 |}
           (TermData 0%nat "hi")
           closed_session_reachable closed_session_removed
           (or_intror (ex_intro _ "hi" eq_refl))
           Sample.wc1 (PtyOutput 1 "hi")).
  - apply list_elem_of_singleton. reflexivity.
  - reflexivity.
Qed.

(** ** Escaping of logged data *)

Section bad_chars.
Import BadChars.
Local Open Scope N_scope.

Let printable (u : N) : Prop := listed u = true ∨ u = backslash.

Lemma of_pos_listed_sized (n : nat) : ∀ (p : positive) (rest : string),
  (Pos.size_nat p ≤ n)%nat →
  Forall (λ u, listed u = true) (units rest) →
  Forall (λ u, listed u = true) (units (HexString.Raw.of_pos p rest)).
Proof.
  induction n as [n IH] using lt_wf_ind. intros p rest Hsize Hrest.
  do 4 try destruct p as [p|p|]; cbn [HexString.Raw.of_pos];
    try (apply (IH (Pos.size_nat p)); [simpl in Hsize; lia | done |]);
    (apply Forall_cons; split; [reflexivity | exact Hrest]).
Qed.

Lemma of_pos_listed (p : positive) (rest : string) :
  Forall (λ u, listed u = true) (units rest) →
  Forall (λ u, listed u = true) (units (HexString.Raw.of_pos p rest)).
Proof. by apply (of_pos_listed_sized (Pos.size_nat p)). Qed.

Lemma toString16_listed c : Forall (λ u, listed u = true) (toString16 c).
Proof.
  unfold toString16. destruct c as [|p].
  - repeat constructor.
  - apply of_pos_listed. constructor.
Qed.

Lemma mapBadChar_printable c : Forall printable (mapBadChar [c]).
Proof.
  unfold mapBadChar. simpl.
  repeat case_match;
    try (repeat (apply Forall_cons; split; [by (left + right)|]);
         apply Forall_nil_2).
  - repeat (apply Forall_cons; split; [by (left + right)|]).
    eapply Forall_impl; [apply toString16_listed|]. by left.
  - repeat (apply Forall_cons; split; [by (left + right)|]).
    eapply Forall_impl; [apply toString16_listed|]. by left.
Qed.

Lemma mapBadChar_head c : ∃ u rest, mapBadChar [c] = backslash :: u :: rest.
Proof.
  unfold mapBadChar. simpl. repeat case_match; by eexists _, _.
Qed.

(** Whatever the data, the escaped text holds only the characters the
    regular expression lists and the backslash. *)
Theorem substituteBadChars_printable data :
  Forall (λ u, listed u = true ∨ u = backslash) (substituteBadChars data).
Proof.
  unfold substituteBadChars. induction data as [|c data IH]; simpl.
  - constructor.
  - apply Forall_app. split; [|exact IH].
    destruct (listed c) eqn:E.
    + constructor; [by left | constructor].
    + apply mapBadChar_printable.
Qed.

(** Escaping works unit by unit: the escaped text of a concatenation is the
    concatenation of the escaped texts, and escaping never shortens. *)
Theorem substituteBadChars_app data1 data2 :
  substituteBadChars (data1 ++ data2) =
    substituteBadChars data1 ++ substituteBadChars data2 ∧
  (length data1 ≤ length (substituteBadChars data1))%nat.
Proof.
  unfold substituteBadChars. split.
  - by rewrite fmap_app, concat_app.
  - induction data1 as [|c data IH]; simpl; [lia|].
    rewrite length_app. unfold fmap in IH.
    destruct (listed c); simpl; [lia|].
    destruct (mapBadChar_head c) as (u & rest & ->). simpl. lia.
Qed.

(** The escaped text equals the data exactly when every unit of the data is
    a listed character; a backslash in the data is escaped too. *)
Theorem substituteBadChars_fixed_iff data :
  substituteBadChars data = data ↔ Forall (λ u, listed u = true) data.
Proof.
  split.
  - induction data as [|c data IH]; [constructor|].
    pose proof (proj2 (substituteBadChars_app data [])) as Hlen.
    replace (substituteBadChars (c :: data))
      with ((if listed c then [c] else mapBadChar [c])
              ++ substituteBadChars data) by reflexivity.
    remember (substituteBadChars data) as out.
    destruct (listed c) eqn:E.
    + simpl. intros [= H]. constructor; auto.
    + intros H. exfalso.
      destruct (mapBadChar_head c) as (u & rest & Hm). rewrite Hm in H.
      simpl in H. injection H as _ H.
      apply (f_equal length) in H. simpl in H. rewrite length_app in H. lia.
  - induction 1 as [|c data Hc _ IH]; [done|].
    replace (substituteBadChars (c :: data))
      with ((if listed c then [c] else mapBadChar [c])
              ++ substituteBadChars data) by reflexivity.
    by rewrite Hc, IH.
Qed.

(** The escaping cannot be undone: the unit 0x100 and the unit 0x10 followed
    by the digit 0 have the same escaped text. *)
Theorem substituteBadChars_not_injective :
  substituteBadChars [256] = substituteBadChars [16; 48] ∧
  ¬ (∀ data1 data2,
       substituteBadChars data1 = substituteBadChars data2 → data1 = data2).
Proof.
  assert (substituteBadChars [256] = substituteBadChars [16; 48]) as H
    by reflexivity.
  split; [exact H|]. intros Hinj. by apply Hinj in H.
Qed.

End bad_chars.

(** ** Theme scan and start-up *)

Lemma scanThemes_loop_warnings themesdir contents : ∀ thememap,
  (scanThemes_loop themesdir thememap contents).2 =
    scan_warning themesdir <$>
      (filter (λ e, entry_throws e.2 = true) contents).*1.
Proof.
  induction contents as [|[item file] rest IH]; intros thememap; [done|].
  simpl. rewrite filter_cons. simpl.
  destruct (scanThemes_item themesdir thememap item file) as [tm' out] eqn:E1.
  specialize (IH tm').
  destruct (scanThemes_loop themesdir tm' rest) as [tm'' out'] eqn:E2.
  simpl in *. rewrite IH. unfold scanThemes_item in E1.
  destruct file as [| text | ti]; simpl in *.
  - injection E1 as _ <-. done.
  - injection E1 as _ <-. done.
  - destruct ti; simpl in *; try (injection E1 as _ <-; done);
      destruct (isString _ && strict_ne_empty _); injection E1 as _ <-; done.
Qed.

(** The scan of a listable directory logs one warning for each entry whose
    [theme.json] cannot be read, does not parse or parses to [null], in
    directory order, and nothing else: an entry without a usable [name] is
    left out without a word. *)
Theorem scanThemes_warnings themesdir contents :
  (scanThemes themesdir (DirContents contents)).2 =
    scan_warning themesdir <$>
      (filter (λ e, entry_throws e.2 = true) contents).*1.
Proof.
  unfold scanThemes.
  pose proof (scanThemes_loop_warnings themesdir contents ∅) as H.
  by destruct (scanThemes_loop themesdir ∅ contents).
Qed.

(** [validateThemeInfo] accepts exactly the objects whose [name] is a
    non-empty string and throws on [null] only. *)
Theorem validateThemeInfo_spec themeinfo :
  (validateThemeInfo themeinfo = Ok true ↔
   ∃ members s, themeinfo = JObject members ∧
                own_property "name" members = Some (JString s) ∧
                s ≠ EmptyString) ∧
  ((∃ e, validateThemeInfo themeinfo = Throw e) ↔ themeinfo = JNull).
Proof.
  split; [apply validateThemeInfo_true|].
  unfold validateThemeInfo, get_name. split.
  - intros [e He]. by destruct themeinfo.
  - intros ->. by exists TypeError.
Qed.

(** The scan of a listable directory with distinct entry names returns a
    map, and the map holds an entry under its name exactly when its
    [theme.json] parses to a value [validateThemeInfo] accepts. *)
Theorem scanThemes_valid_entries themesdir contents :
  NoDup contents.*1 →
  ∃ thememap,
    (scanThemes themesdir (DirContents contents)).1 = Ok (Some thememap) ∧
    ∀ item v, thememap !! item = Some v ↔
      (item, Parsed v) ∈ contents ∧ validateThemeInfo v = Ok true.
Proof.
  intros Hnd.
  destruct (scanThemes_listed themesdir contents Hnd) as (tm & out & -> & H).
  by exists tm.
Qed.

Lemma scanThemes_valid_entries_witness :
  NoDup [("dark", Parsed (JObject [("name", JString "Dark")]));
         ("broken", Malformed "{");
         ("anon", Parsed (JObject [("name", JString EmptyString)]))].*1 ∧
  ∃ thememap,
    (scanThemes "themes"
       (DirContents
          [("dark", Parsed (JObject [("name", JString "Dark")]));
           ("broken", Malformed "{");
           ("anon", Parsed (JObject [("name", JString EmptyString)]))])).1
      = Ok (Some thememap) ∧
    thememap !! "anon" = None.
Proof.
  assert (NoDup [("dark", Parsed (JObject [("name", JString "Dark")]));
                 ("broken", Malformed "{");
                 ("anon", Parsed (JObject [("name", JString EmptyString)]))].*1)
    as Hnd.
  { apply (bool_decide_unpack _). vm_compute. reflexivity. }
  split; [exact Hnd|].
  destruct (scanThemes_valid_entries "themes" _ Hnd) as (tm & Htm & Hiff).
  exists tm. split; [exact Htm|].
  injection Htm as <-. reflexivity.
Defined.

(** [main] gets past its start-up exactly when the configuration file is
    missing or holds an object and the themes directory can be listed; with
    a themes directory that does not exist it stops on a [TypeError]. *)
Theorem main_starts_iff dir file fs :
  ((∃ st, (main dir file fs).1 = Started st) ↔
   (file = ConfigMissing ∨ ∃ members, file = ConfigObject members) ∧
   ∃ contents, fs = DirContents contents) ∧
  ((file = ConfigMissing ∨ ∃ members, file = ConfigObject members) →
   fs = DirMissing →
   main dir file fs = (Aborted (Uncaught TypeError), [])).
Proof.
  split; [split|].
  - intros [st Hst]. unfold main in Hst.
    destruct file as [| | |members]; simpl in Hst; try done;
      (split; [eauto|]);
      destruct fs as [| |contents]; simpl in Hst; try done; eauto.
  - intros [Hfile [contents ->]]. unfold main, scanThemes.
    destruct (scanThemes_loop _ ∅ contents) as [tm out].
    destruct Hfile as [->|[members ->]]; simpl; eauto.
  - intros [->|[members ->]] ->; reflexivity.
Qed.

Lemma main_starts_iff_witness :
  main "/app" ConfigMissing DirMissing = (Aborted (Uncaught TypeError), []).
Proof.
  apply (main_starts_iff "/app" ConfigMissing DirMissing).
  - left. reflexivity.
  - reflexivity.
Defined.

(** When [main] gets past its start-up, the state is the initial state of the
    event loop: no session, counter 0, the scanned themes, and a configured
    theme that is [default] or the name of a scanned theme. *)
Theorem main_started dir file fs st :
  (main dir file fs).1 = Started st →
  ∃ cfg ths,
    st = initial dir cfg ths ∧
    (scanThemes (path_join [dir; THEMES_DIRECTORY]) fs).1 = Ok (Some ths) ∧
    (theme cfg = "default" ∨ is_Some (ths !! theme cfg)) ∧
    ptyCounter st = 0 ∧ ptyMap st = [] ∧ reachable st.
Proof.
  unfold main. intros Hst.
  destruct (readConfigurationFile file) as [e|members]; [done|].
  destruct (scanThemes (path_join [dir; THEMES_DIRECTORY]) fs)
    as [[[ths|]|e] out] eqn:Escan; simpl in Hst; try done.
  injection Hst as <-. eexists _, ths. split; [reflexivity|].
  split; [done|]. split.
  - simpl. unfold theme_or_default.
    destruct (own_property "theme" members) as [[| | |s| |]|]; auto.
    destruct (ths !! s) eqn:E; [right; by rewrite E | by left].
  - split; [done|]. split; [done|]. by eexists _, _, _, [].
Qed.

Lemma main_started_witness :
  ∃ cfg ths,
    initial "/app" {| theme := "default"; blinkingCursor := true;
                      themePath := None |} ∅ = initial "/app" cfg ths ∧
    theme cfg = "default".
Proof.
  destruct (main_started "/app"
              (ConfigObject [("theme", JString "solarized");
                             ("blinkingCursor", JBool true)])
              (DirContents []) _ eq_refl)
    as (cfg & ths & Hst & _).
  exists cfg, ths. split; [exact Hst|].
  injection Hst as <- _. reflexivity.
Defined.

(** ** Tip carousel *)

Section tip_carousel.
Import TipViewer.
Variable tipData : list string.

Lemma click_index b this :
  0 < _getTipCount tipData →
  0 ≤ _tipIndex this < _getTipCount tipData →
  _tipIndex (click tipData b this) =
    (_tipIndex this + net_clicks [b]) mod _getTipCount tipData.
Proof.
  destruct this as [i]. destruct b; simpl; unfold js_mod;
    generalize (_getTipCount tipData); intros n Hn Hi;
    rewrite Z.rem_mod_nonneg by lia.
  - f_equal; lia.
  - replace (i + n - 1) with (i + (-1 + 0) + 1 * n) by lia.
    by rewrite Z.mod_add by lia.
Qed.

Lemma clicks_index bs : ∀ this,
  0 < _getTipCount tipData →
  0 ≤ _tipIndex this < _getTipCount tipData →
  _tipIndex (clicks tipData bs this) =
    (_tipIndex this + net_clicks bs) mod _getTipCount tipData.
Proof.
  unfold clicks. induction bs as [|b bs IH]; intros this Hn Hi; simpl.
  - rewrite Z.add_0_r. symmetry. apply Z.mod_small. lia.
  - pose proof (click_index b this Hn Hi) as Hb.
    rewrite IH; [|done|rewrite Hb; apply Z.mod_pos_bound; lia].
    rewrite Hb. simpl.
    rewrite Zplus_mod_idemp_l. f_equal. lia.
Qed.

(** After any clicks the index depends only on where it started and on how
    many more times the next button was pressed than the previous one: it is
    the start plus that number, modulo the number of tips.  In particular as
    many next clicks as there are tips lead back to the same tip. *)
Theorem tip_index_after_clicks bs this :
  0 < _getTipCount tipData →
  0 ≤ _tipIndex this < _getTipCount tipData →
  _tipIndex (clicks tipData bs this) =
    (_tipIndex this + net_clicks bs) mod _getTipCount tipData ∧
  clicks tipData (repeat NextButton (length tipData)) this = this.
Proof.
  intros Hn Hi. split; [by apply clicks_index|].
  assert (∀ k, net_clicks (repeat NextButton k) = Z.of_nat k) as Hnet.
  { induction k as [|k IH]; [done|]. simpl repeat. simpl net_clicks.
    fold (net_clicks (repeat NextButton k)). rewrite IH. lia. }
  pose proof (clicks_index (repeat NextButton (length tipData)) this Hn Hi)
    as Hidx.
  rewrite Hnet in Hidx. fold (_getTipCount tipData) in Hidx.
  replace (_tipIndex this + _getTipCount tipData)
    with (_tipIndex this + 1 * _getTipCount tipData) in Hidx by lia.
  rewrite Z.mod_add, Z.mod_small in Hidx by lia.
  destruct this as [i], (clicks _ _ _) as [j]. simpl in Hidx. by subst.
Qed.

(** With at least one tip and a non-negative tip counter, the index set by
    [connectedCallback] and every index reached from it by the two buttons
    addresses an existing tip, so the tip shown is never [undefined]. *)
Theorem shown_tip_defined tipCounter bs this :
  0 < _getTipCount tipData →
  0 ≤ tipCounter →
  is_Some (_getTipHTML tipData
             (_tipIndex (clicks tipData bs
                           (connectedCallback tipData tipCounter this)))).
Proof.
  intros Hn Hc.
  assert (0 ≤ _tipIndex (connectedCallback tipData tipCounter this)
            < _getTipCount tipData) as Hstart.
  { simpl. unfold js_mod. rewrite Z.rem_mod_nonneg by lia.
    apply Z.mod_pos_bound. lia. }
  rewrite (clicks_index bs _ Hn Hstart).
  pose proof (Z.mod_pos_bound
    (_tipIndex (connectedCallback tipData tipCounter this) + net_clicks bs)
    (_getTipCount tipData) Hn) as Hb.
  unfold _getTipHTML. rewrite decide_True by lia.
  apply lookup_lt_is_Some. unfold _getTipCount in *. lia.
Qed.

End tip_carousel.

Lemma tip_index_after_clicks_witness :
  TipViewer._tipIndex
    (TipViewer.clicks ["a"; "b"; "c"]
       [TipViewer.PreviousButton; TipViewer.PreviousButton;
        TipViewer.NextButton]
       {| TipViewer._tipIndex := 0 |}) = (0 + -1) mod 3.
Proof.
  apply (tip_index_after_clicks ["a"; "b"; "c"]
           [TipViewer.PreviousButton; TipViewer.PreviousButton;
            TipViewer.NextButton]
           {| TipViewer._tipIndex := 0 |}).
  - reflexivity.
  - split; [discriminate | reflexivity].
Defined.

Lemma shown_tip_defined_witness :
  is_Some (TipViewer._getTipHTML ["a"; "b"; "c"]
             (TipViewer._tipIndex
                (TipViewer.clicks ["a"; "b"; "c"] [TipViewer.PreviousButton]
                   (TipViewer.connectedCallback ["a"; "b"; "c"] 7
                      {| TipViewer._tipIndex := 0 |})))).
Proof.
  apply (shown_tip_defined ["a"; "b"; "c"] 7 [TipViewer.PreviousButton]
           {| TipViewer._tipIndex := 0 |}).
  - reflexivity.
  - discriminate.
Defined.

(** ** Requests and replies *)

(** [handleAsyncIpc] sends at most one message per request, only to the
    sender of the request and only of the type that answers it: a Config for
    a config request, a Themes for a themes request, a Created for a create
    request.  Config and themes requests are always answered and leave the
    state as it was. *)
Theorem reply_discipline os event msg st :
  let r := handleAsyncIpc os event msg st in
  (length (sent (effects r)) ≤ 1)%nat ∧
  (∀ target reply, (target, reply) ∈ sent (effects r) →
     target = sender event ∧
     reply_type (msg_type msg) = Some (msg_type reply)) ∧
  (msg = ConfigRequestMessage ∨ msg = ThemesRequestMessage →
     result r = Ok tt ∧ final r = st ∧ length (sent (effects r)) = 1%nat).
Proof.
  assert (∀ (x : WebContents * Message) y (P : Prop), (x = y → P) →
            x ∈ [y] → P) as Hone.
  { intros x y P HP Hin. apply list_elem_of_singleton in Hin. auto. }
  assert (∀ (x : WebContents * Message) (P : Prop), x ∈ [] → P) as Hnil.
  { intros x P Hin. by apply elem_of_nil in Hin. }
  destruct msg; simpl.
  - split; [lia|]. split; [|done]. intros t r. apply Hone. by intros [= -> ->].
  - split; [lia|]. split; [intros t r; apply Hnil | intros [|]; done].
  - split; [lia|]. split; [intros t r; apply Hnil | intros [|]; done].
  - split; [lia|]. split; [|done]. intros t r. apply Hone. by intros [= -> ->].
  - split; [lia|]. split; [intros t r; apply Hnil | intros [|]; done].
  - destruct os; simpl.
    + split; [lia|]. split; [|intros [|]; done].
      intros t r. apply Hone. by intros [= -> ->].
    + split; [lia|]. split; [intros t r; apply Hnil | intros [|]; done].
  - split; [lia|]. split; [intros t r; apply Hnil | intros [|]; done].
  - unfold handleAsyncIpc, handlePtyResize, bind, get_state; simpl.
    destruct (jsmap_get id (ptyMap st)); simpl;
      (split; [lia|]; split; [intros t r; apply Hnil | intros [|]; done]).
  - unfold handleAsyncIpc, handlePtyInput, bind, get_state; simpl.
    destruct (jsmap_get id (ptyMap st)); simpl;
      (split; [lia|]; split; [intros t r; apply Hnil | intros [|]; done]).
  - split; [lia|]. split; [intros t r; apply Hnil | intros [|]; done].
  - unfold handleAsyncIpc, handlePtyClose, bind, get_state; simpl.
    destruct (jsmap_get id (ptyMap st)); simpl;
      (split; [lia|]; split; [intros t r; apply Hnil | intros [|]; done]).
  - split; [lia|]. split; [intros t r; apply Hnil | intros [|]; done].
Qed.

(** ** Sessions over time *)

Lemma fmap_NoDup_eq {A B} (f : A → B) (xs : list A) x y :
  NoDup (f <$> xs) → x ∈ xs → y ∈ xs → f x = f y → x = y.
Proof.
  induction xs as [|a xs IH]; [intros _ H; by apply elem_of_nil in H|].
  simpl. rewrite NoDup_cons.
  intros [Ha Hxs] [->|Hx]%elem_of_cons [->|Hy]%elem_of_cons Hf; try done.
  - exfalso. apply Ha. rewrite Hf. apply list_elem_of_fmap. by exists y.
  - exfalso. apply Ha. rewrite <- Hf. apply list_elem_of_fmap. by exists x.
  - by apply IH.
Qed.

Lemma registered_bounds st k tup :
  Inv st → jsmap_get k (ptyMap st) = Some tup →
  k ≤ ptyCounter st ∧ (ptyTerm tup < spawned st)%nat.
Proof.
  intros HI Hk.
  destruct (inv_owner st HI k tup Hk) as (l & Hl & Hid & Ht & _).
  destruct (inv_listeners st HI l Hl) as [Hle Hlt]. lia.
Qed.

Lemma handlePtyInput_registered st id tup data :
  jsmap_get id (ptyMap st) = Some tup →
  handlePtyInput id data st = mkRun (Ok tt) st [EWrite (ptyTerm tup) data].
Proof.
  intros H. unfold handlePtyInput, bind, get_state; simpl. by rewrite H.
Qed.

Lemma handlePtyResize_registered st id tup columns rows :
  jsmap_get id (ptyMap st) = Some tup →
  handlePtyResize id columns rows st =
    mkRun (Ok tt) st [EResize (ptyTerm tup) columns rows].
Proof.
  intros H. unfold handlePtyResize, bind, get_state; simpl. by rewrite H.
Qed.

(** In a reachable state every registered id is at most [ptyCounter], and
    two different sessions never share a terminal. *)
Theorem sessions_own_their_terminal st k1 k2 tup1 tup2 :
  reachable st →
  jsmap_get k1 (ptyMap st) = Some tup1 →
  jsmap_get k2 (ptyMap st) = Some tup2 →
  k1 ≤ ptyCounter st ∧
  (ptyTerm tup1 < spawned st)%nat ∧
  (k1 ≠ k2 → ptyTerm tup1 ≠ ptyTerm tup2).
Proof.
  intros HI%reachable_Inv H1 H2.
  destruct (inv_owner st HI k1 tup1 H1) as (l1 & Hl1 & Hid1 & Ht1 & _).
  destruct (inv_owner st HI k2 tup2 H2) as (l2 & Hl2 & Hid2 & Ht2 & _).
  destruct (registered_bounds st k1 tup1 HI H1) as [Hle Hlt].
  split; [lia|]. split; [lia|].
  intros Hne Heq. apply Hne. rewrite <- Hid1, <- Hid2. f_equal.
  apply (fmap_NoDup_eq l_term (listeners st)); [apply HI|done|done|congruence].
Qed.

Lemma sessions_own_their_terminal_witness :
  2 ≤ ptyCounter Sample.three_sessions ∧ (2 ≠ 3 → 1%nat ≠ 2%nat).
Proof.
  destruct (sessions_own_their_terminal Sample.three_sessions 2 3
              {| windowId := 1; ptyTerm := 1%nat |}
              {| windowId := 2; ptyTerm := 2%nat |})
    as (Hle & _ & Hne).
  - exists "/app", Sample.cfg, ∅,
      [Sample.create Sample.wc1; Sample.create Sample.wc1;
       Sample.create Sample.wc2].
    reflexivity.
  - reflexivity.
  - reflexivity.
  - split; [exact Hle | exact Hne].
Defined.

(** A successful create request answers its sender with the next id and
    registers under it a session of the sender's window on a terminal no
    other session has; every other entry is as before, and input and resize
    for the new id reach that terminal. *)
Theorem created_session_usable event command args columns rows st :
  reachable st →
  let r := handleAsyncIpc SpawnOk event
             (CreatePtyRequestMessage command args columns rows) st in
  let id := ptyCounter st + 1 in
  result r = Ok tt ∧
  sent (effects r) = [(sender event, CreatedPtyMessage id)] ∧
  jsmap_get id (ptyMap (final r)) =
    Some {| windowId := win_id (fromWebContents (sender event));
            ptyTerm := spawned st |} ∧
  (∀ k tup, jsmap_get k (ptyMap st) = Some tup →
     jsmap_get k (ptyMap (final r)) = Some tup ∧ ptyTerm tup ≠ spawned st) ∧
  (∀ data, handlePtyInput id data (final r) =
             mkRun (Ok tt) (final r) [EWrite (spawned st) data]) ∧
  (∀ cols' rows', handlePtyResize id cols' rows' (final r) =
             mkRun (Ok tt) (final r) [EResize (spawned st) cols' rows']).
Proof.
  intros Hreach r id.
  pose proof (reachable_Inv st Hreach) as HI.
  assert (jsmap_get id (ptyMap (final r)) =
            Some {| windowId := win_id (fromWebContents (sender event));
                    ptyTerm := spawned st |}) as Hget.
  { subst r id. simpl. apply get_set_eq. }
  split; [done|]. split; [done|]. split; [exact Hget|]. split; [|split].
  - intros k tup Hk. split.
    + subst r id. simpl. rewrite get_set_ne; [done|].
      intros <-. apply get_Some_elem in Hk.
      assert (ptyCounter st + 1 ≤ ptyCounter st); [|lia].
      apply (inv_keys st HI). apply list_elem_of_fmap. by eexists (_, _).
    + destruct (registered_bounds st k tup HI Hk) as [_ Hlt]. lia.
  - intros data. by rewrite (handlePtyInput_registered _ _ _ data Hget).
  - intros c' r'. by rewrite (handlePtyResize_registered _ _ _ c' r' Hget).
Qed.

Lemma created_session_usable_witness :
  sent (effects (handleAsyncIpc SpawnOk {| sender := Sample.wc2 |}
                   (CreatePtyRequestMessage "bash" [] 80 24)
                   Sample.three_sessions)) =
    [(Sample.wc2, CreatedPtyMessage 4)].
Proof.
  apply (created_session_usable {| sender := Sample.wc2 |} "bash" [] 80 24
           Sample.three_sessions).
  exists "/app", Sample.cfg, ∅,
    [Sample.create Sample.wc1; Sample.create Sample.wc1;
     Sample.create Sample.wc2].
  reflexivity.
Defined.

Lemma dispatch_ok ev st s out :
  handle ev st = mkRun (Ok tt) s out → dispatch ev st = (s, out).
Proof. intros H. unfold dispatch. by rewrite H. Qed.

Lemma run_data_chunks st l chunks :
  Inv st → l ∈ listeners st →
  run (TermData (l_term l) <$> chunks) st =
    (st, concat ((λ c,
       [ELog [LText "pty process got data for ptyID="; LNumber (l_ptyId l)];
        ELog [LEscaped c];
        ESend (l_sender l) (PtyOutput (l_ptyId l) c)]) <$> chunks)).
Proof.
  intros HI Hl. induction chunks as [|c chunks IH]; [done|].
  rewrite fmap_cons, run_cons.
  rewrite (dispatch_ok _ _ _ _ (handle_data_unique st l c HI Hl)).
  simpl. by rewrite IH.
Qed.

(** The output chunks of the terminal of a registered session become Output
    messages with the id of the session, one per chunk, in the order of the
    chunks, all to one sender, whose window owns the session; the state does
    not change. *)
Theorem output_order st id tup chunks :
  reachable st →
  jsmap_get id (ptyMap st) = Some tup →
  ∃ owner,
    win_id (fromWebContents owner) = windowId tup ∧
    (run (TermData (ptyTerm tup) <$> chunks) st).1 = st ∧
    sent (run (TermData (ptyTerm tup) <$> chunks) st).2 =
      (λ c, (owner, PtyOutput id c)) <$> chunks.
Proof.
  intros HI%reachable_Inv Hget.
  destruct (session_listener st id tup HI Hget)
    as (l & Hl & Hid & Hterm & Hwin & _).
  exists (l_sender l). split; [done|].
  rewrite <- Hterm, (run_data_chunks st l chunks HI Hl), Hid. simpl.
  split; [done|]. clear. induction chunks as [|c chunks IH]; [done|].
  simpl. f_equal. exact IH.
Qed.

Lemma output_order_witness :
  ∃ owner,
    win_id (fromWebContents owner) = 2 ∧
    sent (run (TermData 2%nat <$> ["a"; "b"]) Sample.three_sessions).2 =
      [(owner, PtyOutput 3 "a"); (owner, PtyOutput 3 "b")].
Proof.
  destruct (output_order Sample.three_sessions 3
              {| windowId := 2; ptyTerm := 2%nat |} ["a"; "b"])
    as (owner & Hwin & _ & Hsent).
  - exists "/app", Sample.cfg, ∅,
      [Sample.create Sample.wc1; Sample.create Sample.wc1;
       Sample.create Sample.wc2].
    reflexivity.
  - reflexivity.
  - exists owner. split; [exact Hwin | exact Hsent].
Defined.

Lemma delete_entries st k' :
  Inv st →
  entry_kept_or_removed st (with_ptyMap (jsmap_delete k' (ptyMap st)) st).
Proof.
  intros HI k _. simpl. destruct (decide (k' = k)) as [->|Hne].
  - right. apply get_delete_eq, HI.
  - left. by apply get_delete_ne.
Qed.

Lemma calm_refl st : Inv st → calm st st.
Proof. intros HI. split; [done|]. split; [done|]. intros k _. by left. Qed.

Lemma calm_delete st k :
  Inv st → calm st (with_ptyMap (jsmap_delete k (ptyMap st)) st).
Proof.
  intros HI. split; [by apply Inv_delete|]. split; [done|].
  by apply delete_entries.
Qed.

Lemma forEach_calm {A} (f : A → M unit) :
  (∀ x st, Inv st → calm st (final (f x st))) →
  ∀ xs st, Inv st → calm st (final (forEach xs f st)).
Proof.
  intros Hf xs st.
  apply (forEach_steps (λ s s' _, Inv s → calm s s') f).
  - apply calm_refl.
  - intros s1 s2 s3 _ _ H12 H23 H1.
    destruct (H12 H1) as (H2 & Hc12 & He12).
    destruct (H23 H2) as (H3 & Hc23 & He23).
    split; [done|]. split; [congruence|]. intros k Hk.
    destruct (He12 k Hk) as [E12|E12];
      (destruct (He23 k) as [E23|E23]; [lia| |]); rewrite ?E23, ?E12; auto.
  - apply Hf.
Qed.

Lemma dispatch_entries ev st :
  Inv st → entry_kept_or_removed st (dispatch ev st).1.
Proof.
  intros HI. rewrite dispatch_final.
  assert (entry_kept_or_removed st st) as Hsame by (intros k _; by left).
  destruct ev as [os event msg | term data | term | window].
  - destruct msg; try exact Hsame.
    + destruct os; [|exact Hsame]. intros k Hk. left. simpl.
      apply get_set_ne. lia.
    + unfold handle, handleAsyncIpc, handlePtyResize, bind, get_state; simpl.
      by destruct (jsmap_get id (ptyMap st)).
    + unfold handle, handleAsyncIpc, handlePtyInput, bind, get_state; simpl.
      by destruct (jsmap_get id (ptyMap st)).
    + unfold handle, handleAsyncIpc, handlePtyClose, bind, get_state; simpl.
      destruct (jsmap_get id (ptyMap st)); simpl; [|done].
      by apply delete_entries.
  - unfold handle, bind at 1, get_state at 1. simpl.
    apply forEach_calm; [|done]. intros l s Hs. by apply calm_refl.
  - unfold handle, bind at 1, get_state at 1. simpl.
    apply forEach_calm; [|done]. intros l s Hs. by apply calm_delete.
  - unfold handle, cleanUpPtyWindow, bind at 1, get_state at 1. simpl.
    apply forEach_calm; [|done]. intros k s Hs.
    unfold cleanUpPtyWindow_visit, bind, get_state; simpl.
    destruct (jsmap_get k (ptyMap s)) as [tup|]; [|by apply calm_refl].
    destruct (decide (windowId tup = win_id window)); simpl;
      [by apply calm_delete | by apply calm_refl].
Qed.

Lemma dispatch_counter_le ev st : ptyCounter st ≤ ptyCounter (dispatch ev st).1.
Proof. destruct (dispatch_counter ev st) as [[H _]|[H _]]; lia. Qed.

(** Once an id has been handed out, its entry never changes: after any
    further events the registry holds the same window and terminal for it,
    or nothing; an id that was removed does not come back. *)
Theorem entries_never_change evs st k :
  reachable st →
  k ≤ ptyCounter st →
  jsmap_get k (ptyMap (run evs st).1) = jsmap_get k (ptyMap st) ∨
  jsmap_get k (ptyMap (run evs st).1) = None.
Proof.
  intros HI%reachable_Inv. revert st HI.
  induction evs as [|ev evs IH]; intros st HI Hk; [by left|].
  rewrite run_cons. simpl.
  pose proof (dispatch_counter_le ev st) as Hle.
  destruct (IH (dispatch ev st).1 (Inv_dispatch ev st HI)) as [E|E]; [lia| |].
  - rewrite E. by apply dispatch_entries.
  - by right.
Qed.

Lemma entries_never_change_witness :
  jsmap_get 2 (ptyMap (run [WindowClosed Sample.win2; Sample.create Sample.wc2]
                           Sample.three_sessions).1)
    = jsmap_get 2 (ptyMap Sample.three_sessions) ∨
  jsmap_get 2 (ptyMap (run [WindowClosed Sample.win2; Sample.create Sample.wc2]
                           Sample.three_sessions).1) = None.
Proof.
  apply (entries_never_change
           [WindowClosed Sample.win2; Sample.create Sample.wc2]
           Sample.three_sessions 2).
  - exists "/app", Sample.cfg, ∅,
      [Sample.create Sample.wc1; Sample.create Sample.wc1;
       Sample.create Sample.wc2].
    reflexivity.
  - discriminate.
Defined.

Lemma ids_after_S lo n :
  ids_after lo (S n) = (lo + 1) :: ids_after (lo + 1) n.
Proof.
  unfold ids_after. simpl. f_equal. rewrite <- fmap_S_seq, <- list_fmap_compose.
  apply list_fmap_ext. intros _ i _. simpl. lia.
Qed.

(** The ids handed out over any sequence of events are consecutive: they are
    the integers that follow the counter at the start, and the counter ends
    at the last of them.  A failed spawn or a removal uses up no id. *)
Theorem ids_are_consecutive evs st :
  created_ids (run evs st).2 =
    ids_after (ptyCounter st) (length (created_ids (run evs st).2)) ∧
  ptyCounter (run evs st).1 =
    ptyCounter st + Z.of_nat (length (created_ids (run evs st).2)).
Proof.
  revert st. induction evs as [|ev evs IH]; intros st.
  - simpl. split; [done|lia].
  - rewrite run_cons. simpl. rewrite created_ids_app.
    destruct (IH (dispatch ev st).1) as [Hids Hc].
    destruct (dispatch_counter ev st) as [[Hq Hnone]|[Hq Hone]].
    + rewrite Hnone. simpl. by rewrite <- Hq.
    + rewrite Hone. simpl. rewrite ids_after_S, <- Hq. split; [by f_equal|lia].
Qed.

Lemma forEach_keys {A} (f : A → M unit) :
  (∀ x st, jsmap_keys (ptyMap (final (f x st))) ⊆ jsmap_keys (ptyMap st)) →
  ∀ xs st,
    jsmap_keys (ptyMap (final (forEach xs f st))) ⊆ jsmap_keys (ptyMap st).
Proof.
  intros Hf.
  apply (forEach_steps
    (λ s s' _, jsmap_keys (ptyMap s') ⊆ jsmap_keys (ptyMap s)) f).
  - done.
  - intros s1 s2 s3 _ _ H12 H23. by etransitivity.
  - apply Hf.
Qed.

Lemma dispatch_keys ev st k :
  k ∈ jsmap_keys (ptyMap (dispatch ev st).1) →
  k ∈ jsmap_keys (ptyMap st) ∨ k ∈ created_ids (dispatch ev st).2.
Proof.
  destruct ev as [os event msg | term data | term | window].
  - destruct msg; try (by left).
    + destruct os; [|by left]. simpl.
      intros [->|Hk]%keys_set; [right|by left].
      apply list_elem_of_singleton. done.
    + unfold dispatch, handle, handleAsyncIpc, handlePtyResize, bind,
        get_state; simpl.
      destruct (jsmap_get id (ptyMap st)); by left.
    + unfold dispatch, handle, handleAsyncIpc, handlePtyInput, bind,
        get_state; simpl.
      destruct (jsmap_get id (ptyMap st)); by left.
    + unfold dispatch, handle, handleAsyncIpc, handlePtyClose, bind,
        get_state; simpl.
      destruct (jsmap_get id (ptyMap st)); simpl; [|by left].
      intros Hk. left. by apply (keys_delete_subseteq (ptyMap st) id).
  - rewrite dispatch_final. intros Hk. left. revert k Hk.
    unfold handle, bind at 1, get_state at 1. simpl.
    by apply forEach_keys.
  - rewrite dispatch_final. intros Hk. left. revert k Hk.
    unfold handle, bind at 1, get_state at 1. simpl.
    apply forEach_keys. intros l s. simpl. apply keys_delete_subseteq.
  - rewrite dispatch_final. intros Hk. left. revert k Hk.
    unfold handle, cleanUpPtyWindow, bind at 1, get_state at 1. simpl.
    apply forEach_keys. intros k s.
    unfold cleanUpPtyWindow_visit, bind, get_state; simpl.
    destruct (jsmap_get k (ptyMap s)) as [tup|]; [|done].
    destruct (decide (windowId tup = win_id window)); simpl; [|done].
    apply keys_delete_subseteq.
Qed.

(** Sessions come from [createPty] only: every id registered after a run was
    registered at its start or handed out during it.  From the state [main]
    leaves, every registered id is one that was handed out. *)
Theorem registered_ids_were_created evs st k :
  k ∈ jsmap_keys (ptyMap (run evs st).1) →
  k ∈ jsmap_keys (ptyMap st) ∨ k ∈ created_ids (run evs st).2.
Proof.
  revert st. induction evs as [|ev evs IH]; intros st; [by left|].
  rewrite run_cons. simpl. rewrite created_ids_app, elem_of_app.
  intros [Hk|Hk]%IH; [|tauto].
  apply dispatch_keys in Hk. tauto.
Qed.

Lemma registered_ids_were_created_witness :
  3 ∈ jsmap_keys (ptyMap Sample.st0) ∨
  3 ∈ created_ids
        (run [Sample.create Sample.wc1; Sample.create Sample.wc1;
              Sample.create Sample.wc2] Sample.st0).2.
Proof.
  apply (registered_ids_were_created
           [Sample.create Sample.wc1; Sample.create Sample.wc1;
            Sample.create Sample.wc2] Sample.st0 3).
  apply (bool_decide_unpack _). vm_compute. reflexivity.
Defined.

(** ** Window cleanup, again *)

Lemma cleanUpPtyWindow_run window st :
  jsmap_wf (ptyMap st) →
  cleanUpPtyWindow window st =
    mkRun (Ok tt)
      (with_ptyMap (filter (λ e, windowId e.2 ≠ win_id window) (ptyMap st)) st)
      ((λ e, EDestroy (ptyTerm e.2)) <$>
         filter (λ e, windowId e.2 = win_id window) (ptyMap st)).
Proof.
  intros Hwf. unfold cleanUpPtyWindow, bind at 1, get_state at 1. simpl.
  by rewrite (cleanup_loop window (ptyMap st) [] st).
Qed.

Lemma wf_filter (P : Z * PtyTuple → Prop) `{!∀ e, Decision (P e)} m :
  jsmap_wf m → jsmap_wf (filter P m).
Proof.
  unfold jsmap_wf, jsmap_keys. intros Hwf.
  eapply sublist_NoDup; [exact Hwf | apply fmap_sublist, sublist_filter].
Qed.

Lemma filter_contradiction {A} (P : A → Prop) `{!∀ x, Decision (P x)} xs :
  (∀ x, ¬ P x) → filter P xs = [].
Proof.
  intros HP. induction xs as [|x xs IH]; [done|].
  by rewrite filter_cons, decide_False.
Qed.

(** Cleaning up after a window a second time does nothing: no terminal is
    destroyed again and the state stays.  Cleaning up after two windows
    leaves the same registry whichever goes first. *)
Theorem cleanUpPtyWindow_idempotent window window' st :
  jsmap_wf (ptyMap st) →
  cleanUpPtyWindow window (final (cleanUpPtyWindow window st)) =
    mkRun (Ok tt) (final (cleanUpPtyWindow window st)) [] ∧
  final (cleanUpPtyWindow window' (final (cleanUpPtyWindow window st))) =
    final (cleanUpPtyWindow window (final (cleanUpPtyWindow window' st))).
Proof.
  intros Hwf.
  assert (∀ w, jsmap_wf (filter (λ e : Z * PtyTuple,
                                   windowId e.2 ≠ win_id w) (ptyMap st)))
    as Hwf' by (intros w; by apply wf_filter).
  rewrite (cleanUpPtyWindow_run window st Hwf),
          (cleanUpPtyWindow_run window' st Hwf).
  cbn [final].
  rewrite (cleanUpPtyWindow_run window (with_ptyMap _ st) (Hwf' window)),
          (cleanUpPtyWindow_run window' (with_ptyMap _ st) (Hwf' window)),
          (cleanUpPtyWindow_run window (with_ptyMap _ st) (Hwf' window')).
  cbn [final]. unfold with_ptyMap. simpl. split.
  - f_equal.
    + f_equal. rewrite list_filter_filter. apply list_filter_iff. naive_solver.
    + rewrite list_filter_filter.
      by rewrite (filter_contradiction _ (ptyMap st))
        by (intros e [H1 H2]; by apply H2).
  - f_equal. rewrite !list_filter_filter. apply list_filter_iff. naive_solver.
Qed.

Lemma cleanUpPtyWindow_idempotent_witness :
  cleanUpPtyWindow Sample.win1
    (final (cleanUpPtyWindow Sample.win1 Sample.three_sessions)) =
    mkRun (Ok tt) (final (cleanUpPtyWindow Sample.win1 Sample.three_sessions))
          [].
Proof.
  apply (cleanUpPtyWindow_idempotent Sample.win1 Sample.win2
           Sample.three_sessions).
  apply (bool_decide_unpack _). vm_compute. reflexivity.
Defined.

(** ** Close and exit of one session *)

Lemma handle_close_registered os event st id tup :
  jsmap_get id (ptyMap st) = Some tup →
  handle (IpcMessage os event (PtyClose id)) st =
    mkRun (Ok tt) (with_ptyMap (jsmap_delete id (ptyMap st)) st)
      [ELog [LText "Main IPC incoming: "; LMessage (PtyClose id)];
       EDestroy (ptyTerm tup)].
Proof.
  intros H. unfold handle, handleAsyncIpc, handlePtyClose, bind, get_state.
  simpl. by rewrite H.
Qed.

Lemma handle_close_absent os event st id :
  jsmap_get id (ptyMap st) = None →
  handle (IpcMessage os event (PtyClose id)) st =
    mkRun (Ok tt) st
      [ELog [LText "Main IPC incoming: "; LMessage (PtyClose id)];
       ELog [LText WARNING_NO_TERMINAL]].
Proof.
  intros H. unfold handle, handleAsyncIpc, handlePtyClose, bind, get_state.
  simpl. by rewrite H.
Qed.

(** A close request and the exit of the terminal of the same registered
    session end in the same state in either order, with the session removed
    and one Close message sent by the exit listener.  When the exit comes
    first the terminal is destroyed once; when the close comes first it is
    destroyed twice, by the close and again by the exit listener. *)
Theorem close_exit_race os event st id tup :
  reachable st →
  jsmap_get id (ptyMap st) = Some tup →
  let close := IpcMessage os event (PtyClose id) in
  let exit := TermExit (ptyTerm tup) in
  (run [close; exit] st).1 = with_ptyMap (jsmap_delete id (ptyMap st)) st ∧
  (run [exit; close] st).1 = with_ptyMap (jsmap_delete id (ptyMap st)) st ∧
  destroyed (run [exit; close] st).2 = [ptyTerm tup] ∧
  destroyed (run [close; exit] st).2 = [ptyTerm tup; ptyTerm tup] ∧
  (sent (run [close; exit] st).2).*2 = [PtyClose id] ∧
  (sent (run [exit; close] st).2).*2 = [PtyClose id].
Proof.
  intros HI%reachable_Inv Hget close exit.
  destruct (session_listener st id tup HI Hget)
    as (l & Hl & Hid & Hterm & _ & _).
  set (st1 := with_ptyMap (jsmap_delete id (ptyMap st)) st).
  assert (Inv st1) as HI1 by (by apply Inv_delete).
  assert (jsmap_get id (ptyMap st1) = None) as Hgone
    by (simpl; apply get_delete_eq, HI).
  assert (dispatch close st =
            (st1, [ELog [LText "Main IPC incoming: "; LMessage (PtyClose id)];
                   EDestroy (ptyTerm tup)])) as Hc
    by (by apply dispatch_ok, handle_close_registered).
  assert (dispatch close st1 =
            (st1, [ELog [LText "Main IPC incoming: "; LMessage (PtyClose id)];
                   ELog [LText WARNING_NO_TERMINAL]])) as Hc1
    by (by apply dispatch_ok, handle_close_absent).
  assert (dispatch exit st =
            (st1, [ELog [LText "pty process exited."];
                   ESend (l_sender l) (PtyClose id);
                   EDestroy (ptyTerm tup)])) as He.
  { apply dispatch_ok. subst exit. rewrite <- Hterm.
    rewrite (handle_exit_unique st l HI Hl). by rewrite Hid, Hterm. }
  assert (dispatch exit st1 =
            (st1, [ELog [LText "pty process exited."];
                   ESend (l_sender l) (PtyClose id);
                   EDestroy (ptyTerm tup)])) as He1.
  { apply dispatch_ok. subst exit. rewrite <- Hterm.
    rewrite (handle_exit_unique st1 l HI1 Hl). rewrite Hid, Hterm.
    by rewrite (delete_unregistered st1 id Hgone). }
  rewrite !run_cons, Hc, He. simpl. rewrite Hc1, He1. done.
Qed.

Lemma close_exit_race_witness :
  destroyed (run [Sample.close Sample.wc1 2; TermExit 1%nat]
                 Sample.three_sessions).2 = [1%nat; 1%nat].
Proof.
  apply (close_exit_race SpawnOk {| sender := Sample.wc1 |}
           Sample.three_sessions 2 {| windowId := 1; ptyTerm := 1%nat |}).
  - exists "/app", Sample.cfg, ∅,
      [Sample.create Sample.wc1; Sample.create Sample.wc1;
       Sample.create Sample.wc2].
    reflexivity.
  - reflexivity.
Defined.

(** ** Tip viewer subscriptions *)

Section tip_subscriptions.
Import TipSubscriptions.
Local Open Scope nat_scope.

Lemma subscribed_app o1 o2 : subscribed (o1 ++ o2) = subscribed o1 ++ subscribed o2.
Proof. apply omap_app. Qed.

Lemma disposed_app o1 o2 : disposed (o1 ++ o2) = disposed o1 ++ disposed o2.
Proof. apply omap_app. Qed.

Lemma release_config_accounted this out :
  accounted this out →
  accounted (release_config this).1 (out ++ (release_config this).2) ∧
  _configManagerDisposable (release_config this).1 = None ∧
  issued (release_config this).1 = issued this ∧
  _keybindingsManagerDisposable (release_config this).1 =
    _keybindingsManagerDisposable this.
Proof.
  intros (Hsub & Hnd & Hall). unfold release_config, accounted, held in *.
  destruct (_configManagerDisposable this) as [d|] eqn:E; simpl.
  - rewrite subscribed_app, disposed_app. simpl.
    rewrite app_nil_r, <- app_assoc. done.
  - rewrite app_nil_r, E. done.
Qed.

Lemma release_keybindings_accounted this out :
  accounted this out →
  accounted (release_keybindings this).1 (out ++ (release_keybindings this).2) ∧
  _keybindingsManagerDisposable (release_keybindings this).1 = None ∧
  issued (release_keybindings this).1 = issued this ∧
  _configManagerDisposable (release_keybindings this).1 =
    _configManagerDisposable this.
Proof.
  intros (Hsub & Hnd & Hall). unfold release_keybindings, accounted, held in *.
  destruct (_keybindingsManagerDisposable this) as [d|] eqn:E; simpl.
  - rewrite subscribed_app, disposed_app. simpl. rewrite !app_nil_r.
    assert ((disposed out ++ [d]) ++ option_list (_configManagerDisposable this)
              ≡ₚ disposed out ++ option_list (_configManagerDisposable this)
                   ++ [d]) as Hperm.
    { rewrite <- app_assoc. f_equiv. apply Permutation_app_comm. }
    split; [|done]. split; [done|]. split.
    + by rewrite Hperm.
    + intros d'. rewrite Hperm. apply Hall.
  - rewrite app_nil_r, E. done.
Qed.

Lemma accounted_fresh this out :
  accounted this out → issued this ∉ disposed out ++ held this.
Proof. intros (_ & _ & Hall) Hin. apply Hall in Hin. lia. Qed.

Lemma invoke_accounted m this out :
  accounted this out →
  accounted (invoke m this).1 (out ++ (invoke m this).2).
Proof.
  intros Hacc. destruct m as [new|new| |]; simpl.
  - unfold setConfigDatabase.
    destruct (release_config_accounted this out Hacc) as (H1 & Hc & Hi & Hk).
    destruct (release_config this) as [this1 o1]. simpl in *.
    pose proof (accounted_fresh _ _ H1) as Hfresh.
    destruct H1 as (Hsub & Hnd & Hall). unfold held in *. rewrite Hc in *.
    simpl in *.
    destruct new as [manager|]; simpl; [|by unfold accounted, held].
    unfold accounted, held.
    cbn [issued _configManagerDisposable _keybindingsManagerDisposable].
    rewrite seq_S, app_assoc, subscribed_app, disposed_app, Hsub.
    simpl. rewrite app_nil_r. split; [done|].
    assert (disposed (out ++ o1) ++
              issued this1 :: option_list (_keybindingsManagerDisposable this1)
            ≡ₚ issued this1 ::
                 disposed (out ++ o1) ++
                 option_list (_keybindingsManagerDisposable this1)) as Hperm
      by (by rewrite <- Permutation_middle).
    split.
    + rewrite Hperm. by apply NoDup_cons.
    + intros d. rewrite Hperm, elem_of_cons, <- Hall. lia.
  - unfold setKeybindingsManager.
    destruct (release_keybindings_accounted this out Hacc)
      as (H1 & Hk & Hi & Hc).
    destruct (release_keybindings this) as [this1 o1]. simpl in *.
    pose proof (accounted_fresh _ _ H1) as Hfresh.
    destruct H1 as (Hsub & Hnd & Hall). unfold held in *. rewrite Hk in *.
    simpl in *.
    destruct new as [manager|]; simpl;
      [|unfold accounted, held; simpl; by rewrite app_nil_r in *].
    unfold accounted, held.
    cbn [issued _configManagerDisposable _keybindingsManagerDisposable].
    rewrite seq_S, app_assoc, subscribed_app, disposed_app, Hsub.
    simpl. rewrite app_nil_r. split; [done|].
    assert (disposed (out ++ o1) ++
              option_list (_configManagerDisposable this1) ++ [issued this1]
            ≡ₚ issued this1 ::
                 disposed (out ++ o1) ++
                 option_list (_configManagerDisposable this1) ++ []) as Hperm.
    { rewrite app_nil_r, app_assoc. symmetry. apply Permutation_cons_append. }
    split.
    + rewrite Hperm. by apply NoDup_cons.
    + intros d. rewrite Hperm, elem_of_cons, <- Hall. lia.
  - apply release_keybindings_accounted, Hacc.
  - apply release_config_accounted, Hacc.
Qed.

Lemma invoke_all_accounted ms : ∀ this out,
  accounted this out →
  accounted (invoke_all ms this).1 (out ++ (invoke_all ms this).2).
Proof.
  induction ms as [|m ms IH]; intros this out Hacc; simpl.
  - by rewrite app_nil_r.
  - pose proof (invoke_accounted m this out Hacc) as H1.
    destruct (invoke m this) as [this1 o1]. simpl in *.
    pose proof (IH this1 (out ++ o1) H1) as H2.
    destruct (invoke_all ms this1) as [this2 o2]. simpl in *.
    by rewrite app_assoc.
Qed.

(** Whatever sequence of [setConfigDatabase], [setKeybindingsManager],
    [dispose] and [disconnectedCallback] a new viewer goes through, it
    disposes no subscription twice, disposes only subscriptions it made, and
    every subscription it made is either disposed or the one it holds for
    that manager; after a final [dispose] and [disconnectedCallback] none is
    left. *)
Theorem subscriptions_accounted ms :
  let this := (invoke_all ms new_viewer).1 in
  let out := (invoke_all ms new_viewer).2 in
  NoDup (disposed out) ∧
  (∀ d, d ∈ disposed out → d ∈ subscribed out ∧ d ∉ held this) ∧
  (∀ d, d ∈ subscribed out → d ∈ disposed out ∨ d ∈ held this) ∧
  (∀ d, d ∈ held this → d ∈ subscribed out) ∧
  (held this = [] → ∀ d, d ∈ subscribed out ↔ d ∈ disposed out).
Proof.
  intros this out.
  assert (accounted new_viewer []) as H0.
  { split; [done|]. split; [apply NoDup_nil_2|].
    intros d. simpl. rewrite elem_of_nil. lia. }
  destruct (invoke_all_accounted ms new_viewer [] H0) as (Hsub & Hnd & Hall).
  simpl in Hsub, Hnd, Hall. fold this in Hsub, Hnd, Hall.
  fold out in Hsub, Hnd, Hall.
  assert (∀ d, d ∈ subscribed out ↔ d ∈ disposed out ++ held this) as Hiff.
  { intros d. rewrite Hsub, <- Hall, elem_of_seq. lia. }
  apply NoDup_app in Hnd as (Hnd1 & Hdisj & Hnd2).
  split; [done|]. split; [|split; [|split]].
  - intros d Hd. split; [|by apply Hdisj].
    apply Hiff, elem_of_app. by left.
  - intros d Hd%Hiff. by apply elem_of_app in Hd.
  - intros d Hd. apply Hiff, elem_of_app. by right.
  - intros Hempty d. rewrite Hiff, Hempty, app_nil_r. done.
Qed.

Lemma subscriptions_accounted_witness :
  NoDup (disposed (invoke_all [SetConfigDatabase (Some 1);
                               SetKeybindingsManager (Some 2);
                               SetConfigDatabase (Some 3);
                               DisposeViewer; DisconnectedCallback]
                              new_viewer).2).
Proof.
  apply (subscriptions_accounted [SetConfigDatabase (Some 1);
                                  SetKeybindingsManager (Some 2);
                                  SetConfigDatabase (Some 3);
                                  DisposeViewer; DisconnectedCallback]).
Defined.

End tip_subscriptions.
